(** * FileSystemWatcher (src/base/filesystemwatcher.cpp)

  A shallow embedding of qBittorrent's watched-folder core: the
  classification of a directory as local or network-backed, the directory
  scan, the tracker of partial torrent files with its retry counter, the two
  timers, and the event loop that drives them.

  The embedding follows the build for Linux (neither Q_OS_WIN, Q_OS_HAIKU
  nor Q_OS_MAC is defined), which is the only one where every branch of the
  source is compiled in. *)

From Stdlib Require Import ZArith Lia Ascii String List Bool.
From stdpp Require Import base option list gmap fin_maps strings.

Set Warnings "-clear-no-such-hyp".

Local Open Scope string_scope.
Local Open Scope Z_scope.
Local Open Scope list_scope.

(** ** Strings as Qt uses them *)

Module QString.

(** [QString::endsWith(s)], case sensitive as it is by default. *)
Fixpoint endsWith (str suffix : string) : bool :=
  String.eqb str suffix
  || match str with
     | EmptyString => false
     | String _ rest => endsWith rest suffix
     end.

(** The last character of a string, the NUL character for the empty one. *)
Fixpoint lastChar (str : string) : ascii :=
  match str with
  | EmptyString => "000"%char
  | String c EmptyString => c
  | String _ rest => lastChar rest
  end.

(** ASCII case folding, what a case-insensitive comparison applies to the
    characters of the two fixed name filters. *)
Definition toLower (c : ascii) : ascii :=
  let n := nat_of_ascii c in
  if ((65 <=? n)%nat && (n <=? 90)%nat)%bool then ascii_of_nat (n + 32) else c.

Definition charEq (caseSensitive : bool) (a b : ascii) : bool :=
  if caseSensitive then Ascii.eqb a b
  else Ascii.eqb (toLower a) (toLower b).

(** [stripPrefix p s] is [Some r] when [s = p ++ r]. *)
Fixpoint stripPrefix (prefix str : string) : option string :=
  match prefix with
  | EmptyString => Some str
  | String c prefix' =>
      match str with
      | EmptyString => None
      | String d str' =>
          if Ascii.eqb c d then stripPrefix prefix' str' else None
      end
  end.

Fixpoint contains (c : ascii) (str : string) : bool :=
  match str with
  | EmptyString => false
  | String d rest => Ascii.eqb c d || contains c rest
  end.

End QString.

(** ** Name filters of [QDir::entryList]

  A name filter is a wildcard pattern; the two this program installs use
  only literal characters and [*].  [?] is handled as well; the patterns of
  the program contain no character set. *)

Module Wildcard.

Fixpoint matches (caseSensitive : bool) (pattern name : string) : bool :=
  match pattern with
  | EmptyString =>
      match name with EmptyString => true | _ => false end
  | String "*"%char pattern' =>
      (fix star (rest : string) : bool :=
         matches caseSensitive pattern' rest
         || match rest with
            | EmptyString => false
            | String _ rest' => star rest'
            end) name
  | String "?"%char pattern' =>
      match name with
      | EmptyString => false
      | String _ name' => matches caseSensitive pattern' name'
      end
  | String c pattern' =>
      match name with
      | EmptyString => false
      | String d name' =>
          QString.charEq caseSensitive c d
          && matches caseSensitive pattern' name'
      end
  end.

Definition matchesAny (caseSensitive : bool) (filters : list string)
    (name : string) : bool :=
  existsb (fun pattern => matches caseSensitive pattern name) filters.

End Wildcard.

(** ** The world outside the watcher *)

(** [statfs(2)]: the [f_type] of the file system on success, [errno] on
    failure. *)
Inductive StatfsResult :=
  | StatfsOk (f_type : Z)
  | StatfsFailed (errno : Z).

(** What the operating system and the torrent parser answer at one moment.
    [files] maps the absolute path of every regular file to the answer of
    [BitTorrent::TorrentInfo::loadFromFile(path).isValid()] for its current
    content. *)
Record World := mkWorld {
  dirExists : string -> bool;
  canonicalPath : string -> string;
  statfs : string -> StatfsResult;
  files : gmap string bool
}.

Definition fileExists (w : World) (path : string) : bool :=
  bool_decide (is_Some (files w !! path)).

Definition isValidTorrent (w : World) (path : string) : bool :=
  bool_decide (files w !! path = Some true).

Definition setFiles (f : gmap string bool) (w : World) : World :=
  mkWorld (dirExists w) (canonicalPath w) (statfs w) f.

(** ** Timers

    [deletePending] records a call of [QObject::deleteLater()]: the object
    stays alive, and every guarded pointer to it stays non-null, until the
    event loop handles the deferred deletion. *)
Record QTimer := mkTimer {
  isSingleShot : bool;
  isActive : bool;
  interval : Z;
  deletePending : bool
}.

Module Timer.

Definition new : QTimer := mkTimer false false 0 false.

Definition setSingleShot (b : bool) (t : QTimer) : QTimer :=
  mkTimer b (isActive t) (interval t) (deletePending t).

Definition start (msec : Z) (t : QTimer) : QTimer :=
  mkTimer (isSingleShot t) true msec (deletePending t).

Definition stop (t : QTimer) : QTimer :=
  mkTimer (isSingleShot t) false (interval t) (deletePending t).

Definition deleteLater (t : QTimer) : QTimer :=
  mkTimer (isSingleShot t) (isActive t) (interval t) true.

(** What [QTimer::timerEvent] does before it emits [timeout()]: a
    single-shot timer stops itself. *)
Definition expire (t : QTimer) : QTimer :=
  if isSingleShot t then stop t else t.

End Timer.

(** Modelled from the spec: the declarations of [m_watchTimer] and
    [m_partialTorrentTimer] (filesystemwatcher.h is not among the sources).
    The spec has each timer exist exactly while its set is non-empty, and the
    code tests both handles for null after the timer was deleted, so a handle
    is a guarded pointer: it reads null once its timer is destroyed.  A handle
    is [None] when null and [Some t] when it points to the live timer [t]. *)
Definition TimerHandle := option QTimer.

(** A timer that exists and is running. *)
Definition armed (h : TimerHandle) : bool :=
  match h with
  | Some t => isActive t
  | None => false
  end.

(** ** Constants of the anonymous namespace *)

Definition CIFS_MAGIC_NUMBER : Z := 0xFF534D42.
Definition NFS_SUPER_MAGIC : Z := 0x6969.
Definition SMB_SUPER_MAGIC : Z := 0x517B.

Definition WATCH_INTERVAL : Z := 10000.
Definition MAX_PARTIAL_RETRIES : Z := 5.

(** [errno] values of <cerrno> on Linux. *)
Definition EACCES : Z := 13.
Definition EFAULT : Z := 14.
Definition EINTR : Z := 4.
Definition EIO : Z := 5.
Definition ELOOP : Z := 40.
Definition ENAMETOOLONG : Z := 36.
Definition ENOENT : Z := 2.
Definition ENOMEM : Z := 12.
Definition ENOSYS : Z := 38.
Definition ENOTDIR : Z := 20.
Definition EOVERFLOW : Z := 75.

(** [buf.f_type] is a signed long; comparing it with an [unsigned long]
    constant converts it to [unsigned long] (64 bits on LP64). *)
Definition to_unsigned_long (x : Z) : Z := x mod 2 ^ 64.

(** ** What the watcher does to the outside *)

Inductive Effect :=
  | TorrentsAdded (paths : list string)
  | Rename (oldName newName : string) (succeeded : bool)
  | StdErr (line : string)
  | StdErrErrno (errno : Z).

(** ** The watcher object *)

Record FileSystemWatcher := mkWatcher {
  m_filters : list string;
  m_partialTorrents : gmap string Z;
  m_partialTorrentTimer : TimerHandle;
  m_watchedFolders : list string;
  m_watchTimer : TimerHandle;
  (** the directories of the base class [QFileSystemWatcher] *)
  baseDirectories : list string
}.

(** The watcher, the world it runs in, and everything it has emitted or done
    to the world so far, oldest first. *)
Record Config := mkConfig {
  watcher : FileSystemWatcher;
  world : World;
  effects : list Effect
}.

Definition setWatcher (f : FileSystemWatcher) (c : Config) : Config :=
  mkConfig f (world c) (effects c).

Definition setWorld (w : World) (c : Config) : Config :=
  mkConfig (watcher c) w (effects c).

Definition perform (e : Effect) (c : Config) : Config :=
  mkConfig (watcher c) (world c) (effects c ++ [e]).

Definition setPartialTorrents (m : gmap string Z) (f : FileSystemWatcher)
    : FileSystemWatcher :=
  mkWatcher (m_filters f) m (m_partialTorrentTimer f) (m_watchedFolders f)
    (m_watchTimer f) (baseDirectories f).

Definition setPartialTorrentTimer (h : TimerHandle) (f : FileSystemWatcher)
    : FileSystemWatcher :=
  mkWatcher (m_filters f) (m_partialTorrents f) h (m_watchedFolders f)
    (m_watchTimer f) (baseDirectories f).

Definition setWatchedFolders (l : list string) (f : FileSystemWatcher)
    : FileSystemWatcher :=
  mkWatcher (m_filters f) (m_partialTorrents f) (m_partialTorrentTimer f) l
    (m_watchTimer f) (baseDirectories f).

Definition setWatchTimer (h : TimerHandle) (f : FileSystemWatcher)
    : FileSystemWatcher :=
  mkWatcher (m_filters f) (m_partialTorrents f) (m_partialTorrentTimer f)
    (m_watchedFolders f) h (baseDirectories f).

Definition setBaseDirectories (l : list string) (f : FileSystemWatcher)
    : FileSystemWatcher :=
  mkWatcher (m_filters f) (m_partialTorrents f) (m_partialTorrentTimer f)
    (m_watchedFolders f) (m_watchTimer f) l.

(** The constructor. *)
Definition newFileSystemWatcher : FileSystemWatcher :=
  mkWatcher ["*.torrent"; "*.magnet"] ∅ None [] None [].

(** ** Qt primitives the watcher calls *)

Module QDir.

(** [QDir::operator==]: the same path, or two existing directories with
    one canonical path.  The paths the watcher is handed are absolute, so
    two directories that do not exist are equal only under the same
    path, and an existing directory never equals a missing one. *)
Definition eqb (w : World) (a b : string) : bool :=
  String.eqb a b
  || (dirExists w a && dirExists w b
      && String.eqb (canonicalPath w a) (canonicalPath w b)).

(** The path of [dir] with the separator that precedes an entry name. *)
Definition withSeparator (dir : string) : string :=
  if QString.endsWith dir "/" then dir else dir +:+ "/".

(** [QDir::absoluteFilePath] for a directory given by an absolute path
    without redundant separators, which is what the watcher is handed. *)
Definition absoluteFilePath (dir name : string) : string :=
  withSeparator dir +:+ name.

(** The name under which [path] is listed as an entry of [dir] itself, not
    of a sub-directory.  A name that starts with a dot is a hidden file,
    which a listing without [QDir::Hidden] leaves out. *)
Definition entryName (dir path : string) : option string :=
  match QString.stripPrefix (withSeparator dir) path with
  | Some name =>
      if QString.contains "/"%char name then None
      else match name with
           | EmptyString => None
           | String first _ =>
               if Ascii.eqb first "."%char then None else Some name
           end
  | None => None
  end.

(** [dir.entryList(nameFilters, QDir::Files, QDir::Unsorted)]: the names
    of the regular files of [dir] that match one of the filters.  Without
    the flag [QDir::CaseSensitive] the filters are matched case
    insensitively, without [QDir::Hidden] hidden files are left out; the
    order is that of the underlying listing. *)
Definition entryList (w : World) (dir : string) (nameFilters : list string)
    (caseSensitive : bool) : list string :=
  omap (fun entry : string * bool =>
          match entryName dir (fst entry) with
          | Some name =>
              if Wildcard.matchesAny caseSensitive nameFilters name
              then Some name else None
          | None => None
          end)
       (map_to_list (files w)).

End QDir.

Module QFile.

(** [QFile::rename(oldName, newName)]: fails when [oldName] is missing or
    [newName] is taken. *)
Definition rename (oldName newName : string) (c : Config) : bool * Config :=
  let w := world c in
  match files w !! oldName with
  | Some content =>
      if fileExists w newName
      then (false, perform (Rename oldName newName false) c)
      else (true,
            perform (Rename oldName newName true)
              (setWorld (setFiles (<[newName := content]>
                                     (delete oldName (files w))) w) c))
  | None => (false, perform (Rename oldName newName false) c)
  end.

End QFile.

(** [QFileSystemWatcher::addPath]: an empty path or a path watched already
    is refused. *)
Definition QFileSystemWatcher_addPath (path : string) (c : Config) : Config :=
  let f := watcher c in
  if (String.eqb path "" || bool_decide (path ∈ baseDirectories f))%bool then c
  else setWatcher (setBaseDirectories (baseDirectories f ++ [path]) f) c.

Definition QFileSystemWatcher_removePath (path : string) (c : Config)
    : Config :=
  let f := watcher c in
  setWatcher
    (setBaseDirectories
       (filter (fun d => d ≠ path) (baseDirectories f)) f) c.

(** ** The member functions, in the order of the source *)

(** [FileSystemWatcher::isNetworkFileSystem] *)
Definition errnoMessage (errno : Z) : string :=
  if errno =? EACCES then
    "Search permission is denied for a component of the path prefix of the path"
  else if errno =? EFAULT then "Buf or path points to an invalid address"
  else if errno =? EINTR then "This call was interrupted by a signal"
  else if errno =? EIO then "I/O Error"
  else if errno =? ELOOP then "Too many symlinks"
  else if errno =? ENAMETOOLONG then "path is too long"
  else if errno =? ENOENT then "The file referred by path does not exist"
  else if errno =? ENOMEM then "Insufficient kernel memory"
  else if errno =? ENOSYS then "The file system does not detect this call"
  else if errno =? ENOTDIR then "A component of the path is not a directory"
  else if errno =? EOVERFLOW then
    "Some values were too large to be represented in the struct"
  else "Unknown error".

Definition statfsArgument (path : string) : string :=
  let file := if QString.endsWith path "/" then path else path +:+ "/" in
  file +:+ ".".

Definition isNetworkFileSystem (path : string) (c : Config) : bool * Config :=
  let file := statfsArgument path in
  match statfs (world c) file with
  | StatfsOk f_type =>
      ((to_unsigned_long f_type =? CIFS_MAGIC_NUMBER)
       || (to_unsigned_long f_type =? NFS_SUPER_MAGIC)
       || (to_unsigned_long f_type =? SMB_SUPER_MAGIC), c)
  | StatfsFailed errno =>
      (false,
       perform (StdErrErrno errno)
         (perform (StdErr (errnoMessage errno))
            (perform
               (StdErr ("Error: statfs() call failed for " +:+ file
                        +:+ ". Supposing it is a local folder..."))
               c)))
  end.

(** [FileSystemWatcher::startPartialTorrentTimer] *)
Definition startPartialTorrentTimer (c : Config) : Config :=
  let f := watcher c in
  match m_partialTorrentTimer f with
  | None =>
      setWatcher
        (setPartialTorrentTimer
           (Some (Timer.start WATCH_INTERVAL
                    (Timer.setSingleShot true Timer.new))) f) c
  | Some _ => c
  end.

(** The body of the [foreach] of [addTorrentsFromDir], for one entry. *)
Definition addTorrentFile (dir file : string)
    (acc : list string * Config) : list string * Config :=
  let '(torrents, c) := acc in
  let fileAbsPath := QDir.absoluteFilePath dir file in
  if QString.endsWith fileAbsPath ".magnet" then
    (torrents ++ [fileAbsPath], c)
  else if isValidTorrent (world c) fileAbsPath then
    (torrents ++ [fileAbsPath], c)
  else if negb (bool_decide
                  (is_Some (m_partialTorrents (watcher c) !! fileAbsPath))) then
    (torrents,
     setWatcher
       (setPartialTorrents
          (<[fileAbsPath := 0]> (m_partialTorrents (watcher c)))
          (watcher c)) c)
  else (torrents, c).

(** [FileSystemWatcher::addTorrentsFromDir] *)
Definition addTorrentsFromDir (dir : string) (torrents : list string)
    (c : Config) : list string * Config :=
  let entries :=
    QDir.entryList (world c) dir (m_filters (watcher c)) false in
  let '(torrents, c) :=
    foldl (fun acc file => addTorrentFile dir file acc) (torrents, c) entries in
  if bool_decide (m_partialTorrents (watcher c) ≠ ∅)
  then (torrents, startPartialTorrentTimer c)
  else (torrents, c).

(** The report at the end of both scans and of the reconciliation. *)
Definition reportTorrents (torrents : list string) (c : Config) : Config :=
  match torrents with
  | [] => c
  | _ => perform (TorrentsAdded torrents) c
  end.

(** [FileSystemWatcher::scanLocalFolder] *)
Definition scanLocalFolder (path : string) (c : Config) : Config :=
  let '(torrents, c) := addTorrentsFromDir path [] c in
  reportTorrents torrents c.

(** [FileSystemWatcher::scanNetworkFolders] *)
Definition scanNetworkFolders (c : Config) : Config :=
  let '(torrents, c) :=
    foldl (fun acc dir => addTorrentsFromDir dir (fst acc) (snd acc))
          ([], c) (m_watchedFolders (watcher c)) in
  reportTorrents torrents c.

(** [FileSystemWatcher::addPath] *)
Definition addPath (path : string) (c : Config) : Config :=
  if negb (dirExists (world c) path) then c
  else
    let '(network, c) := isNetworkFileSystem path c in
    if network then
      let f := watcher c in
      let f := setWatchedFolders (m_watchedFolders f ++ [path]) f in
      let f :=
        match m_watchTimer f with
        | None =>
            setWatchTimer (Some (Timer.start WATCH_INTERVAL Timer.new)) f
        | Some _ => f
        end in
      setWatcher f c
    else scanLocalFolder path (QFileSystemWatcher_addPath path c).

(** The loop of [removePath]: the first index, from [i] on, whose folder
    equals [dir]. *)
Fixpoint findWatchedFolder (w : World) (dir : string) (folders : list string)
    (i : nat) : option nat :=
  match folders with
  | [] => None
  | d :: rest =>
      if QDir.eqb w d dir then Some i
      else findWatchedFolder w dir rest (S i)
  end.

(** [FileSystemWatcher::removePath] *)
Definition removePath (path : string) (c : Config) : Config :=
  let f := watcher c in
  match findWatchedFolder (world c) path (m_watchedFolders f) 0 with
  | Some i =>
      let folders := delete i (m_watchedFolders f) in
      let f := setWatchedFolders folders f in
      match folders with
      | [] => setWatcher (setWatchTimer None f) c
      | _ => setWatcher f c
      end
  | None => QFileSystemWatcher_removePath path c
  end.

(** [FileSystemWatcher::directories] *)
Definition directories (c : Config) : list string :=
  let f := watcher c in
  match m_watchTimer f with
  | Some _ => map (canonicalPath (world c)) (m_watchedFolders f)
  | None => []
  end ++ baseDirectories f.

(** The predicate [processPartialTorrents] hands to [Dict::removeIf]: whether
    the entry is to be removed, its value afterwards, and the list and the
    configuration the lambda has written to. *)
Definition partialTorrentCheck (torrentPath : string) (value : Z)
    (noLongerPartial : list string) (c : Config)
    : bool * Z * list string * Config :=
  if negb (fileExists (world c) torrentPath) then
    (true, value, noLongerPartial, c)
  else if isValidTorrent (world c) torrentPath then
    (true, value, noLongerPartial ++ [torrentPath], c)
  else if MAX_PARTIAL_RETRIES <=? value then
    (true, value, noLongerPartial,
     snd (QFile.rename torrentPath (torrentPath +:+ ".invalid") c))
  else (false, value + 1, noLongerPartial, c).

(** [Dict::removeIf] (algorithm.h) at this predicate: every entry of the
    dictionary is visited once; it is erased when the predicate holds and
    keeps the value the predicate left in it otherwise. *)
Fixpoint removeIfLoop (entries : list (string * Z)) (dict : gmap string Z)
    (noLongerPartial : list string) (c : Config)
    : gmap string Z * list string * Config :=
  match entries with
  | [] => (dict, noLongerPartial, c)
  | (key, value) :: rest =>
      let '(erase, value', noLongerPartial', c') :=
        partialTorrentCheck key value noLongerPartial c in
      removeIfLoop rest
        (if erase then delete key dict else <[key := value']> dict)
        noLongerPartial' c'
  end.

(** [FileSystemWatcher::processPartialTorrents] *)
Definition processPartialTorrents (c : Config) : Config :=
  let dict := m_partialTorrents (watcher c) in
  let '(dict, noLongerPartial, c) :=
    removeIfLoop (map_to_list dict) dict [] c in
  let f := setPartialTorrents dict (watcher c) in
  let f :=
    if bool_decide (dict = ∅) then
      setPartialTorrentTimer
        (Timer.deleteLater <$> (Timer.stop <$> m_partialTorrentTimer f)) f
    else
      setPartialTorrentTimer
        (Timer.start WATCH_INTERVAL <$> m_partialTorrentTimer f) f in
  reportTorrents noLongerPartial (setWatcher f c).

(** ** The event loop

    One control thread handles one event at a time, each to completion.  An
    event that cannot occur in the current configuration (the timeout of a
    timer that is not running, a change notification for a directory that is
    not subscribed) leaves it unchanged. *)
Inductive Event :=
  | CallAddPath (path : string)
  | CallRemovePath (path : string)
  | DirectoryChanged (path : string)
  | WatchTimeout
  | PartialTimeout
  | DeferredDelete
  | WorldChanged (w : World).

Definition step (c : Config) (e : Event) : Config :=
  let f := watcher c in
  match e with
  | CallAddPath path => addPath path c
  | CallRemovePath path => removePath path c
  | DirectoryChanged path =>
      if bool_decide (path ∈ baseDirectories f) then scanLocalFolder path c
      else c
  | WatchTimeout =>
      match m_watchTimer f with
      | Some t =>
          if isActive t then
            scanNetworkFolders
              (setWatcher (setWatchTimer (Some (Timer.expire t)) f) c)
          else c
      | None => c
      end
  | PartialTimeout =>
      match m_partialTorrentTimer f with
      | Some t =>
          if isActive t then
            processPartialTorrents
              (setWatcher (setPartialTorrentTimer (Some (Timer.expire t)) f) c)
          else c
      | None => c
      end
  | DeferredDelete =>
      match m_partialTorrentTimer f with
      | Some t =>
          if deletePending t
          then setWatcher (setPartialTorrentTimer None f) c
          else c
      | None => c
      end
  | WorldChanged w => setWorld w c
  end.

Definition run (c : Config) (events : list Event) : Config :=
  foldl step c events.

Definition initial (w : World) : Config :=
  mkConfig newFileSystemWatcher w [].

Definition reachable (c : Config) : Prop :=
  exists w events, c = run (initial w) events.

(** * The vocabulary of the statements *)

(** ** Names and classification *)

(** A path that can come out of a listing with the two name filters ends,
    up to case, with the letter both filters end with. *)
Definition endsLikeFilter (path : string) : Prop :=
  QString.toLower (QString.lastChar path) = "t"%char.


(** The lines [isNetworkFileSystem] writes to [std::cerr]. *)
Definition statfsDiagnostics (path : string) (r : StatfsResult)
    : list Effect :=
  match r with
  | StatfsOk _ => []
  | StatfsFailed errno =>
      [StdErr ("Error: statfs() call failed for " +:+ statfsArgument path
               +:+ ". Supposing it is a local folder...");
       StdErr (errnoMessage errno);
       StdErrErrno errno]
  end.

(** ** Scans *)

(** An entry the scan puts into the batch: a magnet link, or a torrent file
    the parser accepts. *)
Definition readyFile (w : World) (path : string) : bool :=
  QString.endsWith path ".magnet" || isValidTorrent w path.

(** The absolute paths one scan of [dir] visits. *)
Definition scanPaths (w : World) (dir : string) (nameFilters : list string)
    : list string :=
  map (QDir.absoluteFilePath dir) (QDir.entryList w dir nameFilters false).

(** The paths one scan of [dir] reports. *)
Definition readyPaths (w : World) (nameFilters : list string) (dir : string)
    : list string :=
  filter (fun p => readyFile w p = true) (scanPaths w dir nameFilters).

(** The dictionary after the scan has gone through the paths [l]. *)
Definition registerPartial (w : World) (l : list string) (m : gmap string Z)
    : gmap string Z :=
  foldl (fun m path =>
           if readyFile w path then m
           else if bool_decide (is_Some (m !! path)) then m
           else <[path := 0]> m) m l.

(** The partial-torrent timer after a scan that leaves the dictionary [m]. *)
Definition timerAfterScan (m : gmap string Z) (h : TimerHandle)
    : TimerHandle :=
  if bool_decide (m ≠ ∅) then
    match h with
    | None =>
        Some (Timer.start WATCH_INTERVAL (Timer.setSingleShot true Timer.new))
    | Some t => Some t
    end
  else h.

(** The watcher after one scan of [dir]. *)
Definition scanWatcher (w : World) (f : FileSystemWatcher) (dir : string)
    : FileSystemWatcher :=
  let m :=
    registerPartial w (scanPaths w dir (m_filters f)) (m_partialTorrents f) in
  setPartialTorrentTimer (timerAfterScan m (m_partialTorrentTimer f))
    (setPartialTorrents m f).

(** The network poll timer after [addPath] on a network folder. *)
Definition timerAfterAddPath (h : TimerHandle) : TimerHandle :=
  match h with
  | None => Some (Timer.start WATCH_INTERVAL Timer.new)
  | Some t => Some t
  end.

(** ** Effects of a handler *)

(** The effects of [c'] that [c] did not have yet. *)
Definition since (c c' : Config) : list Effect :=
  drop (length (effects c)) (effects c').

(** The paths of all the batches among the effects, in order. *)
Fixpoint reported (es : list Effect) : list string :=
  match es with
  | [] => []
  | TorrentsAdded paths :: rest => paths ++ reported rest
  | _ :: rest => reported rest
  end.

(** How many times [path] has been reported. *)
Definition reportCount (path : string) (es : list Effect) : nat :=
  length (filter (fun p => p = path) (reported es)).

(** The report of a batch: none for an empty one. *)
Definition report (batch : list string) : list Effect :=
  match batch with
  | [] => []
  | _ => [TorrentsAdded batch]
  end.

(** The effect is the rename of one of [keys] to its name with [.invalid]
    appended. *)
Definition isRenameOf (keys : list string) (e : Effect) : Prop :=
  exists p ok, e = Rename p (p +:+ ".invalid") ok /\ p ∈ keys.

(** ** Reconciliation *)

(** What becomes of a tracked entry, read off the world at one moment. *)
Inductive Outcome := Vanished | BecameValid | GaveUp | StillPartial.

(** The branch of the lambda of [processPartialTorrents] that [path] with
    retry count [value] takes in the world [w]. *)
Definition outcome (w : World) (path : string) (value : Z) : Outcome :=
  if negb (fileExists w path) then Vanished
  else if isValidTorrent w path then BecameValid
  else if MAX_PARTIAL_RETRIES <=? value then GaveUp
  else StillPartial.

(** The tracker, the list of paths that are no longer partial and the
    configuration after the loop. *)
Definition loopDict (r : gmap string Z * list string * Config) := r.1.1.
Definition loopList (r : gmap string Z * list string * Config) := r.1.2.
Definition loopConfig (r : gmap string Z * list string * Config) := r.2.

(** The loop of the tick that starts in [c]. *)
Definition tickLoop (c : Config) : gmap string Z * list string * Config :=
  removeIfLoop (map_to_list (m_partialTorrents (watcher c)))
    (m_partialTorrents (watcher c)) [] c.

(** The partial-torrent timer after a tick that leaves the dictionary [m]. *)
Definition timerAfterTick (m : gmap string Z) (h : TimerHandle)
    : TimerHandle :=
  if bool_decide (m = ∅) then Timer.deleteLater <$> (Timer.stop <$> h)
  else Timer.start WATCH_INTERVAL <$> h.

(** No tracked path is another tracked path with [.invalid] appended. *)
Definition trackerSound (m : gmap string Z) : Prop :=
  map_Forall
    (fun (p : string) (_ : Z) =>
       map_Forall (fun (q : string) (_ : Z) => q <> p +:+ ".invalid") m) m.

#[global] Instance trackerSound_dec (m : gmap string Z) :
  Decision (trackerSound m) :=
  map_Forall_dec
    (fun (p : string) (_ : Z) =>
       map_Forall (fun (q : string) (_ : Z) => q <> p +:+ ".invalid") m) m.

(** One reconciliation tick in the world [w]. *)
Definition tick (w : World) (c : Config) : Config :=
  processPartialTorrents (setWorld w c).

(** One tick after the other, the [i]-th in the [i]-th world of [ws]: the
    world may change freely between two ticks. *)
Definition reconcile (c : Config) (ws : list World) : Config :=
  foldl (fun c w => tick w c) c ws.

(** The file at [path] exists and the parser rejects it. *)
Definition failing (w : World) (path : string) : Prop :=
  files w !! path = Some false.

(** ** Invariants of the event loop *)

(** The network timer and the list of network folders go together. *)
Definition watchTimerInv (f : FileSystemWatcher) : Prop :=
  match m_watchTimer f with
  | None => m_watchedFolders f = []
  | Some t =>
      m_watchedFolders f <> [] /\ isActive t = true /\ isSingleShot t = false
  end.

(** The filters are the two of the constructor; every tracked path and
    every reported path ends like a filter; every retry count is within the
    ceiling; the network timer goes with the network folders. *)
Definition invariant (c : Config) : Prop :=
  m_filters (watcher c) = m_filters newFileSystemWatcher
  /\ map_Forall
       (fun (p : string) (v : Z) =>
          endsLikeFilter p /\ 0 <= v <= MAX_PARTIAL_RETRIES)
       (m_partialTorrents (watcher c))
  /\ Forall endsLikeFilter (reported (effects c))
  /\ watchTimerInv (watcher c).

(** The reconciliation timer and the tracker go together: no handle while
    the tracker is empty, a running single-shot timer that is not awaiting its
    deletion while it is not. *)
Definition partialTimerInv (f : FileSystemWatcher) : Prop :=
  match m_partialTorrentTimer f with
  | None => m_partialTorrents f = ∅
  | Some t =>
      m_partialTorrents f <> ∅ /\ isActive t = true
      /\ deletePending t = false /\ isSingleShot t = true
  end.

(** The events, with every deferred deletion handled right after the
    reconciliation timeout that may have scheduled it. *)
Definition promptDeletion (events : list Event) : list Event :=
  flat_map (fun e =>
              match e with
              | PartialTimeout => [PartialTimeout; DeferredDelete]
              | _ => [e]
              end) events.

(** ** Properties the statements refer to *)

(** What C5 states, with the number of ticks as a parameter: after [ticks]
    reconciliation ticks in the world [w], the entry of [path] is gone and the
    file is under its name with [.invalid] appended. *)
Definition removedAndRenamedAfter (ticks : nat) (w : World) (c : Config)
    (path : string) : Prop :=
  let c' := reconcile c (replicate ticks w) in
  m_partialTorrents (watcher c') !! path = None
  /\ files (world c') !! path = None
  /\ files (world c') !! (path +:+ ".invalid") = Some false.

(** The first half of C4 for one handler that takes [c] to [c']: no path in
    a batch the handler has emitted is in the tracker when the handler is
    done, which is when the batch is emitted. *)
Definition reportedOnlyUntracked (c c' : Config) : Prop :=
  forall p, p ∈ reported (since c c') ->
            m_partialTorrents (watcher c') !! p = None.

(** How many entries of [l] are [d]. *)
Definition occurrences (d : string) (l : list string) : nat :=
  length (filter (fun x => x = d) l).


(** ** Example worlds *)

Module ScanExample.

(** A directory with a torrent still being written, a complete one and a
    magnet link. *)
Definition w : World :=
  mkWorld (fun _ => true) (fun p => p) (fun _ => StatfsOk 0)
    (<["/d/a.torrent" := false]>
       (<["/d/b.magnet" := false]> (<["/d/c.torrent" := true]> ∅))).

Definition c : Config := initial w.

End ScanExample.

Module TickExample.

(** A directory with one torrent file the parser rejects. *)
Definition w : World :=
  mkWorld (fun _ => true) (fun p => p) (fun _ => StatfsOk 0)
    (<["/d/b.torrent" := false]> ∅).

(** The same file once it has been written out. *)
Definition wValid : World :=
  mkWorld (fun _ => true) (fun p => p) (fun _ => StatfsOk 0)
    (<["/d/b.torrent" := true]> ∅).

(** The watcher after [addPath("/d")]: the file is tracked with count 0. *)
Definition c : Config := run (initial w) [CallAddPath "/d"].

End TickExample.

Module NetworkExample.

(** A folder on NFS that holds one complete torrent file. *)
Definition w : World :=
  mkWorld (fun _ => true) (fun p => p) (fun _ => StatfsOk NFS_SUPER_MAGIC)
    (<["/mnt/nas/a.torrent" := true]> ∅).

(** A folder on NFS with a torrent file that is being written. *)
Definition w1 : World :=
  mkWorld (fun _ => true) (fun p => p) (fun _ => StatfsOk NFS_SUPER_MAGIC)
    (<["/mnt/nas/a.torrent" := false]> ∅).

(** The same folder later: the first file is gone, another one is being
    written. *)
Definition w2 : World :=
  mkWorld (fun _ => true) (fun p => p) (fun _ => StatfsOk NFS_SUPER_MAGIC)
    (<["/mnt/nas/b.torrent" := false]> ∅).

(** The folder is registered and polled once, which finds the partial
    file; the world changes; the reconciliation timer fires and empties the
    tracker; the poll timer fires before the event loop gets to the deferred
    deletion of the reconciliation timer. *)
Definition events : list Event :=
  [CallAddPath "/mnt/nas"; WatchTimeout; WorldChanged w2; PartialTimeout;
   WatchTimeout].

End NetworkExample.

(** ** Batches, one by one *)

(** The batches among the effects, each as it was emitted. *)
Fixpoint batches (es : list Effect) : list (list string) :=
  match es with
  | [] => []
  | TorrentsAdded paths :: rest => paths :: batches rest
  | _ :: rest => batches rest
  end.

(** All of [paths] in one batch, and no batch for no path. *)
Definition inOneBatch (paths : list string) : list (list string) :=
  match paths with
  | [] => []
  | _ => [paths]
  end.

(** The paths the handler of [e] finds ready by scanning: a directory change
    scans the directory when the base class watches it, a poll scans every
    network folder in the order of the list, [addPath] scans a local
    directory at once, and nothing else scans. *)
Definition foundByScan (c : Config) (e : Event) : list string :=
  let ready := readyPaths (world c) (m_filters (watcher c)) in
  match e with
  | CallAddPath path =>
      if dirExists (world c) path
         && negb (fst (isNetworkFileSystem path c))
      then ready path else []
  | DirectoryChanged path =>
      if bool_decide (path ∈ baseDirectories (watcher c))
      then ready path else []
  | WatchTimeout =>
      if armed (m_watchTimer (watcher c))
      then flat_map ready (m_watchedFolders (watcher c)) else []
  | _ => []
  end.

(** The path [p] is one a reconciliation tick in [c] finds ready: the timer
    runs, the tracker holds [p], the file exists and the parser accepts
    it. *)
Definition foundByTick (c : Config) (p : string) : Prop :=
  armed (m_partialTorrentTimer (watcher c)) = true
  /\ exists v, m_partialTorrents (watcher c) !! p = Some v
       /\ fileExists (world c) p = true
       /\ isValidTorrent (world c) p = true.

(** ** More invariants of the event loop *)

(** How the code sets its timers up: the network poll timer repeats, the
    reconciliation timer is single-shot, and both run on [WATCH_INTERVAL];
    the poll timer is never left awaiting a deferred deletion. *)
Definition timersConfigured (f : FileSystemWatcher) : Prop :=
  match m_watchTimer f with
  | Some t =>
      isSingleShot t = false /\ interval t = WATCH_INTERVAL
      /\ deletePending t = false
  | None => True
  end
  /\ match m_partialTorrentTimer f with
     | Some t => isSingleShot t = true /\ interval t = WATCH_INTERVAL
     | None => True
     end.


(** None of the effects is a rename. *)
Definition noRename (es : list Effect) : Prop :=
  forall oldName newName ok, Rename oldName newName ok ∉ es.

(** ** More example worlds *)

Module EdgeExample.

(** A torrent file the parser rejects, next to a file that already has its
    name with [.invalid] appended. *)
Definition wTaken : World :=
  mkWorld (fun _ => true) (fun p => p) (fun _ => StatfsOk 0)
    (<["/d/b.torrent" := false]> (<["/d/b.torrent.invalid" := true]> ∅)).

(** The watcher of [TickExample] after five ticks: the retry count is at the
    ceiling. *)
Definition cAtCeiling : Config :=
  reconcile TickExample.c (replicate 5 TickExample.w).

(** A directory with a magnet file whose extension is in upper case. *)
Definition wUpper : World :=
  mkWorld (fun _ => true) (fun p => p) (fun _ => StatfsOk 0)
    (<["/d/X.MAGNET" := false]> ∅).

End EdgeExample.

(** * Properties *)

(** ** Strings and name filters *)

Section StringFacts.

Lemma append_nil_l (b : string) : "" +:+ b = b.
Proof. reflexivity. Qed.

Lemma append_cons (x : ascii) (a b : string) :
  String x a +:+ b = String x (a +:+ b).
Proof. reflexivity. Qed.

Lemma append_assoc (a b c : string) : (a +:+ b) +:+ c = a +:+ (b +:+ c).
Proof.
  induction a as [|x a IH]; [done|]. rewrite !append_cons. by f_equal.
Qed.

Lemma endsWith_unfold (s suffix : string) :
  QString.endsWith s suffix
  = String.eqb s suffix
    || match s with
       | EmptyString => false
       | String _ rest => QString.endsWith rest suffix
       end.
Proof. by destruct s. Qed.

Lemma endsWith_refl (s : string) : QString.endsWith s s = true.
Proof. by rewrite endsWith_unfold, String.eqb_refl. Qed.

Lemma endsWith_append (a suffix : string) :
  QString.endsWith (a +:+ suffix) suffix = true.
Proof.
  induction a as [|x a IH].
  - apply endsWith_refl.
  - rewrite append_cons, endsWith_unfold, IH. apply orb_true_r.
Qed.

Lemma endsWith_inv (s suffix : string) :
  QString.endsWith s suffix = true -> exists a, s = a +:+ suffix.
Proof.
  induction s as [|x s IH]; rewrite endsWith_unfold; intros H.
  - rewrite orb_false_r in H. apply String.eqb_eq in H. by exists "".
  - apply orb_true_iff in H as [H|H].
    + apply String.eqb_eq in H. by exists "".
    + destruct (IH H) as [a ->]. by exists (String x a).
Qed.

Lemma lastChar_append (a b : string) :
  b <> "" -> QString.lastChar (a +:+ b) = QString.lastChar b.
Proof.
  intros Hb. induction a as [|x a IH]; [done|].
  rewrite append_cons. simpl. rewrite IH.
  destruct (a +:+ b) eqn:E; [|done].
  destruct a; [by rewrite append_nil_l in E | by rewrite append_cons in E].
Qed.

Lemma stripPrefix_Some (prefix s r : string) :
  QString.stripPrefix prefix s = Some r -> s = prefix +:+ r.
Proof.
  revert s. induction prefix as [|c prefix IH]; intros s; simpl.
  - by intros [= ->].
  - destruct s as [|d s]; [done|].
    destruct (Ascii.eqb c d) eqn:E; [|done].
    apply Ascii.eqb_eq in E as ->. intros H.
    by rewrite append_cons, <- (IH _ H).
Qed.

Lemma stripPrefix_append (prefix r : string) :
  QString.stripPrefix prefix (prefix +:+ r) = Some r.
Proof.
  induction prefix as [|c prefix IH]; [done|].
  rewrite append_cons. simpl. by rewrite Ascii.eqb_refl.
Qed.

(** A name accepted by [*] followed by a pattern ends with a string the
    pattern accepts. *)
Lemma matches_star_inv (cs : bool) (pattern name : string) :
  Wildcard.matches cs (String "*"%char pattern) name = true ->
  exists front back,
    name = front +:+ back /\ Wildcard.matches cs pattern back = true.
Proof.
  induction name as [|x name IH]; simpl; intros H.
  - rewrite orb_false_r in H. by exists "", "".
  - apply orb_true_iff in H as [H|H].
    + by exists "", (String x name).
    + destruct (IH H) as (front & back & -> & Hm).
      by exists (String x front), back.
Qed.

Lemma charEq_t (cs : bool) (d : ascii) :
  QString.charEq cs "t"%char d = true -> QString.toLower d = "t"%char.
Proof.
  unfold QString.charEq. destruct cs; intros H; apply Ascii.eqb_eq in H.
  - by subst d.
  - by rewrite <- H.
Qed.

End StringFacts.

Ltac split_name H name :=
  let c := fresh "c" in
  destruct name as [|c name]; [discriminate H|];
  simpl in H; apply andb_prop in H as [_ H].

Lemma matches_torrent_last (cs : bool) (name : string) :
  Wildcard.matches cs "*.torrent" name = true ->
  name <> "" /\ endsLikeFilter name.
Proof.
  intros H. apply matches_star_inv in H as (front & back & -> & H).
  assert (back <> "" /\ endsLikeFilter back) as [Hne Hl].
  { do 7 split_name H back.
    destruct back as [|c6 back]; [discriminate H|]. simpl in H.
    apply andb_prop in H as [Hc H]. destruct back; [|discriminate H].
    split; [done|]. unfold endsLikeFilter; simpl. by apply (charEq_t cs). }
  split.
  - destruct front; [done | by rewrite append_cons].
  - unfold endsLikeFilter. by rewrite lastChar_append.
Qed.

Lemma matches_magnet_last (cs : bool) (name : string) :
  Wildcard.matches cs "*.magnet" name = true ->
  name <> "" /\ endsLikeFilter name.
Proof.
  intros H. apply matches_star_inv in H as (front & back & -> & H).
  assert (back <> "" /\ endsLikeFilter back) as [Hne Hl].
  { do 6 split_name H back.
    destruct back as [|c6 back]; [discriminate H|]. simpl in H.
    apply andb_prop in H as [Hc H]. destruct back; [|discriminate H].
    split; [done|]. unfold endsLikeFilter; simpl. by apply (charEq_t cs). }
  split.
  - destruct front; [done | by rewrite append_cons].
  - unfold endsLikeFilter. by rewrite lastChar_append.
Qed.

Lemma invalid_not_like_filter (path : string) :
  ~ endsLikeFilter (path +:+ ".invalid").
Proof.
  unfold endsLikeFilter. rewrite lastChar_append; [|done]. simpl.
  vm_compute. discriminate.
Qed.

Lemma matchesAny_filters_last (cs : bool) (name : string) :
  Wildcard.matchesAny cs (m_filters newFileSystemWatcher) name = true ->
  name <> "" /\ endsLikeFilter name.
Proof.
  simpl. rewrite orb_false_r. intros H.
  apply orb_true_iff in H as [H|H];
    [by apply (matches_torrent_last cs) | by apply (matches_magnet_last cs)].
Qed.

(** ** Classification *)

Lemma isNetworkFileSystem_frame (path : string) (c : Config) :
  watcher (snd (isNetworkFileSystem path c)) = watcher c
  /\ world (snd (isNetworkFileSystem path c)) = world c
  /\ effects (snd (isNetworkFileSystem path c))
     = effects c
       ++ statfsDiagnostics path (statfs (world c) (statfsArgument path)).
Proof.
  unfold isNetworkFileSystem.
  destruct (statfs (world c) (statfsArgument path)) as [t|e]; simpl.
  - by rewrite app_nil_r.
  - by rewrite <- !app_assoc.
Qed.



(** ** Records: the setters against the projections *)

Lemma Config_eta (c : Config) : mkConfig (watcher c) (world c) (effects c) = c.
Proof. by destruct c. Qed.

Lemma setPartialTorrents_id (f : FileSystemWatcher) :
  setPartialTorrents (m_partialTorrents f) f = f.
Proof. by destruct f. Qed.

Lemma setWatcher_id (c : Config) : setWatcher (watcher c) c = c.
Proof. by destruct c. Qed.

(** ** The directory scan *)

Lemma registerPartial_lookup (w : World) (l : list string)
    (m : gmap string Z) (p : string) :
  registerPartial w l m !! p
  = match m !! p with
    | Some v => Some v
    | None =>
        if bool_decide (p ∈ l) && negb (readyFile w p) then Some 0 else None
    end.
Proof.
  unfold registerPartial.
  revert m. induction l as [|x l IH]; intros m; simpl.
  - by destruct (m !! p).
  - rewrite IH. clear IH.
    destruct (decide (p = x)) as [->|Hne].
    + rewrite (bool_decide_eq_true_2 (x ∈ x :: l)) by apply list_elem_of_here.
      destruct (readyFile w x) eqn:Hr; simpl.
      * destruct (m !! x); [done|]. by rewrite andb_false_r.
      * destruct (m !! x) as [v|] eqn:Hm.
        -- rewrite bool_decide_eq_true_2 by eauto. by rewrite Hm.
        -- rewrite bool_decide_eq_false_2 by apply is_Some_None.
           by rewrite lookup_insert_eq.
    + assert (bool_decide (p ∈ x :: l) = bool_decide (p ∈ l)) as ->.
      { apply bool_decide_ext. rewrite elem_of_cons. tauto. }
      destruct (readyFile w x); [done|].
      case_bool_decide; [done|]. by rewrite lookup_insert_ne.
Qed.

Lemma addTorrentFile_eq (dir file : string) (torrents : list string)
    (c : Config) :
  let p := QDir.absoluteFilePath dir file in
  addTorrentFile dir file (torrents, c)
  = (torrents ++ filter (fun p => readyFile (world c) p = true) [p],
     setWatcher
       (setPartialTorrents
          (registerPartial (world c) [p] (m_partialTorrents (watcher c)))
          (watcher c)) c).
Proof.
  intros p. unfold addTorrentFile, registerPartial. fold p. simpl.
  unfold readyFile.
  destruct (QString.endsWith p ".magnet") eqn:Hm; simpl.
  { rewrite filter_cons_True by (by rewrite Hm).
    by rewrite setPartialTorrents_id, setWatcher_id. }
  destruct (isValidTorrent (world c) p) eqn:Hv; simpl.
  { rewrite filter_cons_True by (rewrite Hv; apply orb_true_r).
    by rewrite setPartialTorrents_id, setWatcher_id. }
  rewrite filter_cons_False by (rewrite Hm, Hv; by simpl).
  rewrite app_nil_r.
  destruct (bool_decide (is_Some (m_partialTorrents (watcher c) !! p)));
    simpl; [|done].
  by rewrite setPartialTorrents_id, setWatcher_id.
Qed.

Lemma addTorrentFile_fold (dir : string) (entries : list string)
    (torrents : list string) (c : Config) :
  foldl (fun acc file => addTorrentFile dir file acc) (torrents, c) entries
  = (torrents
       ++ filter (fun p => readyFile (world c) p = true)
            (map (QDir.absoluteFilePath dir) entries),
     setWatcher
       (setPartialTorrents
          (registerPartial (world c)
             (map (QDir.absoluteFilePath dir) entries)
             (m_partialTorrents (watcher c)))
          (watcher c)) c).
Proof.
  revert torrents c. induction entries as [|file entries IH];
    intros torrents c.
  - simpl. by rewrite app_nil_r, setPartialTorrents_id, setWatcher_id.
  - cbn [foldl map]. rewrite addTorrentFile_eq, IH. f_equal.
    rewrite <- app_assoc. f_equal.
    change (world (setWatcher ?f c)) with (world c).
    by rewrite <- filter_app.
Qed.

Lemma addTorrentsFromDir_eq (dir : string) (torrents : list string)
    (c : Config) :
  let paths := scanPaths (world c) dir (m_filters (watcher c)) in
  let m := registerPartial (world c) paths (m_partialTorrents (watcher c)) in
  addTorrentsFromDir dir torrents c
  = (torrents ++ filter (fun p => readyFile (world c) p = true) paths,
     setWatcher
       (setPartialTorrentTimer
          (timerAfterScan m (m_partialTorrentTimer (watcher c)))
          (setPartialTorrents m (watcher c))) c).
Proof.
  intros paths m. subst m paths. unfold addTorrentsFromDir, scanPaths.
  rewrite addTorrentFile_fold.
  unfold timerAfterScan, startPartialTorrentTimer.
  destruct c as [f w e]. destruct f as [fi pt ti wf wt bd]. simpl.
  case_bool_decide; [|done]. by destruct ti.
Qed.

(** Every path a scan visits names a regular file of the directory whose
    name one of the filters accepts. *)
Lemma scanPaths_spec (w : World) (dir : string) (nameFilters : list string)
    (p : string) :
  p ∈ scanPaths w dir nameFilters <->
  exists name,
    p = QDir.absoluteFilePath dir name
    /\ QDir.entryName dir p = Some name
    /\ is_Some (files w !! p)
    /\ Wildcard.matchesAny false nameFilters name = true.
Proof.
  unfold scanPaths, QDir.entryList. rewrite list_elem_of_fmap. split.
  - intros (name & -> & Hin). apply list_elem_of_omap in Hin
      as ([path valid] & Hin & H). simpl in H.
    destruct (QDir.entryName dir path) as [name'|] eqn:En; [|done].
    destruct (Wildcard.matchesAny false nameFilters name') eqn:Hm; [|done].
    injection H as ->. apply elem_of_map_to_list in Hin.
    assert (path = QDir.absoluteFilePath dir name) as Heq.
    { unfold QDir.entryName in En.
      destruct (QString.stripPrefix (QDir.withSeparator dir) path)
        as [r|] eqn:Es; [|done].
      apply stripPrefix_Some in Es.
      destruct (QString.contains "/" r); [done|].
      destruct r as [|first r]; [done|].
      destruct (Ascii.eqb first "."); [done|]. by injection En as <-. }
    exists name. rewrite <- Heq. eauto.
  - intros (name & -> & En & [valid Hf] & Hm). exists name. split; [done|].
    apply list_elem_of_omap.
    exists (QDir.absoluteFilePath dir name, valid). split.
    + by apply elem_of_map_to_list.
    + simpl. by rewrite En, Hm.
Qed.

Lemma scanPaths_like_filter (w : World) (dir p : string) :
  p ∈ scanPaths w dir (m_filters newFileSystemWatcher) -> endsLikeFilter p.
Proof.
  intros (name & -> & _ & _ & Hm)%scanPaths_spec.
  apply matchesAny_filters_last in Hm as [Hne Hl].
  unfold endsLikeFilter, QDir.absoluteFilePath. by rewrite lastChar_append.
Qed.

(** X20.  One scan of a directory, entry by entry.  For every entry the
    listing returns: a path that ends with [.magnet], in lower case, is put
    into the batch whatever the parser would say about it; any other entry is
    taken for a metadata file and is in the batch exactly when the parser
    accepts it; such an entry that the parser rejects and the tracker does not
    hold yet is registered with retry count 0, and an entry the tracker held
    keeps its count.  Nothing else gets into the batch, so no file that was
    handed to the parser and rejected is in it. *)
Theorem scan_partitions_entries (dir : string) (c : Config) (file : string) :
  file ∈ QDir.entryList (world c) dir (m_filters (watcher c)) false ->
  let p := QDir.absoluteFilePath dir file in
  let batch := fst (addTorrentsFromDir dir [] c) in
  let before := m_partialTorrents (watcher c) in
  let after := m_partialTorrents (watcher (snd (addTorrentsFromDir dir [] c))) in
  (QString.endsWith p ".magnet" = true -> p ∈ batch)
  /\ (QString.endsWith p ".magnet" = false ->
      (p ∈ batch <-> isValidTorrent (world c) p = true))
  /\ (QString.endsWith p ".magnet" = false ->
      isValidTorrent (world c) p = false ->
      before !! p = None -> after !! p = Some 0)
  /\ (forall q, q ∈ batch ->
        q ∈ scanPaths (world c) dir (m_filters (watcher c))
        /\ (QString.endsWith q ".magnet" = true
            \/ isValidTorrent (world c) q = true))
  /\ (forall q v, before !! q = Some v -> after !! q = Some v).
Proof.
  intros Hin p batch before after. subst batch after.
  rewrite addTorrentsFromDir_eq. simpl.
  assert (Hp : p ∈ scanPaths (world c) dir (m_filters (watcher c))).
  { unfold scanPaths. apply list_elem_of_fmap. by exists file. }
  repeat split.
  - intros Hm. apply list_elem_of_filter. split; [|done].
    unfold readyFile. by rewrite Hm.
  - intros (Hr & _)%list_elem_of_filter. unfold readyFile in Hr.
    by rewrite H in Hr.
  - intros Hv. apply list_elem_of_filter. split; [|done].
    unfold readyFile. rewrite Hv. apply orb_true_r.
  - intros Hm Hv Hb. rewrite registerPartial_lookup. fold before.
    rewrite Hb. rewrite bool_decide_eq_true_2 by done.
    unfold readyFile. by rewrite Hm, Hv.
  - by apply list_elem_of_filter in H as [_ ?].
  - apply list_elem_of_filter in H as [Hr _]. unfold readyFile in Hr.
    by apply orb_true_iff in Hr.
  - intros q v Hq. rewrite registerPartial_lookup. fold before.
    by rewrite Hq.
Qed.

Lemma scan_partitions_entries_witness :
  "a.torrent" ∈ QDir.entryList ScanExample.w "/d" ["*.torrent"; "*.magnet"] false
  /\ m_partialTorrents
       (watcher (snd (addTorrentsFromDir "/d" [] ScanExample.c)))
     !! "/d/a.torrent" = Some 0.
Proof.
  assert (H : "a.torrent"
              ∈ QDir.entryList ScanExample.w "/d" ["*.torrent"; "*.magnet"]
                  false).
  { apply (bool_decide_unpack _). vm_compute. exact I. }
  split; [exact H|].
  destruct (scan_partitions_entries "/d" ScanExample.c "a.torrent" H)
    as (_ & _ & Hregistered & _).
  apply Hregistered; vm_compute; reflexivity.
Defined.

(** C8, where the code departs from it.  The name filters are matched
    without regard to case, the test for a magnet link is not: in a directory
    that holds [X.MAGNET] the scan lists the file, because [*.magnet] accepts
    its name while [*.torrent] does not, and then takes it for a metadata
    file.  The parser rejects it, so the batch is empty and the file is
    registered as partial with retry count 0; six ticks later the watcher has
    renamed the magnet link to [X.MAGNET.invalid] without ever reporting
    it. *)
Theorem magnet_entry_in_upper_case_is_validated :
  let c := initial EdgeExample.wUpper in
  let scan := addTorrentsFromDir "/d" [] c in
  let c' := scanLocalFolder "/d" c in
  let c'' := reconcile c' (replicate 6 EdgeExample.wUpper) in
  QDir.entryList (world c) "/d" (m_filters (watcher c)) false = ["X.MAGNET"]
  /\ Wildcard.matches false "*.magnet" "X.MAGNET" = true
  /\ Wildcard.matches false "*.torrent" "X.MAGNET" = false
  /\ QString.endsWith (QDir.absoluteFilePath "/d" "X.MAGNET") ".magnet"
     = false
  /\ fst scan = []
  /\ m_partialTorrents (watcher (snd scan)) !! "/d/X.MAGNET" = Some 0
  /\ effects c' = []
  /\ m_partialTorrents (watcher c') !! "/d/X.MAGNET" = Some 0
  /\ armed (m_partialTorrentTimer (watcher c')) = true
  /\ effects c'' = [Rename "/d/X.MAGNET" "/d/X.MAGNET.invalid" true]
  /\ files (world c'') !! "/d/X.MAGNET" = None
  /\ files (world c'') !! "/d/X.MAGNET.invalid" = Some false.
Proof. vm_compute. by split_and!. Qed.

(** ** Renaming *)

Section Rename.

Variables (oldName newName : string) (c : Config).

Lemma rename_watcher : watcher (snd (QFile.rename oldName newName c)) = watcher c.
Proof.
  unfold QFile.rename.
  destruct (files (world c) !! oldName); [|done].
  by destruct (fileExists (world c) newName).
Qed.

Lemma rename_effects :
  effects (snd (QFile.rename oldName newName c)) = effects c ++ [Rename oldName newName (fst (QFile.rename oldName newName c))].
Proof.
  unfold QFile.rename.
  destruct (files (world c) !! oldName); [|done].
  by destruct (fileExists (world c) newName).
Qed.

Lemma rename_succeeds :
  fst (QFile.rename oldName newName c) = fileExists (world c) oldName
          && negb (fileExists (world c) newName).
Proof.
  unfold QFile.rename, fileExists at 2.
  destruct (files (world c) !! oldName) eqn:E.
  - rewrite bool_decide_eq_true_2 by eauto.
    by destruct (fileExists (world c) newName).
  - by rewrite bool_decide_eq_false_2 by apply is_Some_None.
Qed.

Lemma rename_files_other (x : string) :
  x <> oldName -> x <> newName ->
  files (world (snd (QFile.rename oldName newName c))) !! x = files (world c) !! x.
Proof.
  intros H1 H2. unfold QFile.rename.
  destruct (files (world c) !! oldName); [|done].
  destruct (fileExists (world c) newName); [done|]. simpl.
  by rewrite lookup_insert_ne, lookup_delete_ne.
Qed.

Lemma rename_files_done :
  fst (QFile.rename oldName newName c) = true -> oldName <> newName ->
  files (world (snd (QFile.rename oldName newName c))) !! oldName = None
  /\ files (world (snd (QFile.rename oldName newName c))) !! newName = files (world c) !! oldName.
Proof.
  unfold QFile.rename.
  destruct (files (world c) !! oldName); [|done].
  destruct (fileExists (world c) newName); [done|]. simpl.
  intros _ Hne. by rewrite lookup_insert_ne, lookup_delete_eq,
    lookup_insert_eq.
Qed.

Lemma rename_world_rest :
  dirExists (world (snd (QFile.rename oldName newName c))) = dirExists (world c)
  /\ canonicalPath (world (snd (QFile.rename oldName newName c))) = canonicalPath (world c)
  /\ statfs (world (snd (QFile.rename oldName newName c))) = statfs (world c).
Proof.
  unfold QFile.rename.
  destruct (files (world c) !! oldName); [|done].
  by destruct (fileExists (world c) newName).
Qed.

End Rename.

Lemma append_invalid_ne (p : string) : p <> p +:+ ".invalid".
Proof.
  induction p as [|x p IH]; [done|].
  rewrite append_cons. by intros [= H].
Qed.

Lemma append_suffix_inj (a b suffix : string) :
  a +:+ suffix = b +:+ suffix -> a = b.
Proof.
  assert (Hlen : forall s t, String.length (s +:+ t)
                             = (String.length s + String.length t)%nat).
  { induction s as [|x s IH]; intros t; [done|].
    rewrite append_cons. simpl. by rewrite IH. }
  revert b. induction a as [|x a IH]; intros [|y b] H.
  - done.
  - apply (f_equal String.length) in H. rewrite append_nil_l, Hlen in H.
    simpl in H. lia.
  - apply (f_equal String.length) in H. rewrite append_nil_l, Hlen in H.
    simpl in H. lia.
  - rewrite !append_cons in H. injection H as -> H. f_equal. by apply IH.
Qed.

(** ** One reconciliation tick *)

Lemma partialTorrentCheck_eq (path : string) (value : Z)
    (noLongerPartial : list string) (c : Config) :
  partialTorrentCheck path value noLongerPartial c
  = match outcome (world c) path value with
    | Vanished => (true, value, noLongerPartial, c)
    | BecameValid => (true, value, noLongerPartial ++ [path], c)
    | GaveUp =>
        (true, value, noLongerPartial,
         snd (QFile.rename path (path +:+ ".invalid") c))
    | StillPartial => (false, value + 1, noLongerPartial, c)
    end.
Proof.
  unfold partialTorrentCheck, outcome.
  destruct (fileExists (world c) path); simpl; [|done].
  destruct (isValidTorrent (world c) path); [done|].
  by destruct (MAX_PARTIAL_RETRIES <=? value).
Qed.

Lemma removeIfLoop_cons (key : string) (value : Z)
    (rest : list (string * Z)) (dict : gmap string Z) (nlp : list string)
    (c : Config) :
  removeIfLoop ((key, value) :: rest) dict nlp c
  = match outcome (world c) key value with
    | Vanished => removeIfLoop rest (delete key dict) nlp c
    | BecameValid => removeIfLoop rest (delete key dict) (nlp ++ [key]) c
    | GaveUp =>
        removeIfLoop rest (delete key dict) nlp
          (snd (QFile.rename key (key +:+ ".invalid") c))
    | StillPartial => removeIfLoop rest (<[key := value + 1]> dict) nlp c
    end.
Proof.
  cbn [removeIfLoop]. rewrite partialTorrentCheck_eq.
  by destruct (outcome (world c) key value).
Qed.

(** What the loop leaves alone, and where what it adds comes from. *)
Lemma removeIfLoop_frame (entries : list (string * Z)) :
  forall (dict : gmap string Z) (nlp : list string) (c : Config),
    let r := removeIfLoop entries dict nlp c in
    watcher (loopConfig r) = watcher c
    /\ dirExists (world (loopConfig r)) = dirExists (world c)
    /\ canonicalPath (world (loopConfig r)) = canonicalPath (world c)
    /\ statfs (world (loopConfig r)) = statfs (world c)
    /\ (exists new, loopList r = nlp ++ new /\ sublist new entries.*1)
    /\ (exists rs, effects (loopConfig r) = effects c ++ rs
                   /\ Forall (isRenameOf entries.*1) rs)
    /\ (forall q v', loopDict r !! q = Some v' ->
          ((q ∉ entries.*1) /\ dict !! q = Some v')
          \/ exists v, (q, v) ∈ entries /\ v' = v + 1
                       /\ v < MAX_PARTIAL_RETRIES).
Proof.
  induction entries as [|[key value] rest IH]; intros dict nlp c.
  - simpl. split_and!; try done.
    + exists []. by rewrite app_nil_r.
    + exists []. by rewrite app_nil_r.
    + intros q v' Hq. left. split; [apply not_elem_of_nil | done].
  - intros r. subst r. rewrite removeIfLoop_cons.
    assert (Hweaken : forall rs,
              Forall (isRenameOf rest.*1) rs ->
              Forall (isRenameOf ((key, value) :: rest).*1) rs).
    { intros rs Hrs. eapply Forall_impl; [exact Hrs|].
      intros e (p & ok & -> & Hp).
      exists p, ok. split; [done|]. simpl. by apply list_elem_of_further. }
    assert (Hdel : forall (r : gmap string Z * list string * Config),
              (forall q v', loopDict r !! q = Some v' ->
                 ((q ∉ rest.*1) /\ delete key dict !! q = Some v')
                 \/ exists v, (q, v) ∈ rest /\ v' = v + 1
                              /\ v < MAX_PARTIAL_RETRIES) ->
              forall q v', loopDict r !! q = Some v' ->
                ((q ∉ ((key, value) :: rest).*1) /\ dict !! q = Some v')
                \/ exists v, (q, v) ∈ (key, value) :: rest /\ v' = v + 1
                             /\ v < MAX_PARTIAL_RETRIES).
    { intros r Hv q v' Hq.
      destruct (Hv q v' Hq) as [[Hnot Hq']|(v & Hin & ?)].
      - left. apply lookup_delete_Some in Hq' as [Hne Hq'].
        split; [|done]. simpl. apply not_elem_of_cons. by split.
      - right. exists v. split; [|done]. by apply list_elem_of_further. }
    destruct (outcome (world c) key value) eqn:Ho.
    + destruct (IH (delete key dict) nlp c)
        as (Hw & Hd & Hc & Hs & (new & Hn & Hsub) & (rs & He & Hrs) & Hv).
      split_and!; try done.
      * exists new. split; [done|]. by apply sublist_cons.
      * exists rs. split; [done|]. by apply Hweaken.
      * by apply Hdel.
    + destruct (IH (delete key dict) (nlp ++ [key]) c)
        as (Hw & Hd & Hc & Hs & (new & Hn & Hsub) & (rs & He & Hrs) & Hv).
      split_and!; try done.
      * exists (key :: new). split; [by rewrite Hn, <- app_assoc|].
        by apply sublist_skip.
      * exists rs. split; [done|]. by apply Hweaken.
      * by apply Hdel.
    + destruct (IH (delete key dict) nlp
                  (snd (QFile.rename key (key +:+ ".invalid") c)))
        as (Hw & Hd & Hc & Hs & (new & Hn & Hsub) & (rs & He & Hrs) & Hv).
      destruct (rename_world_rest key (key +:+ ".invalid") c)
        as (Hd' & Hc' & Hs').
      rewrite rename_watcher in Hw. rewrite rename_effects in He.
      split_and!; try congruence.
      * exists new. split; [done|]. by apply sublist_cons.
      * eexists. split; [by rewrite He, <- app_assoc|].
        apply Forall_cons. split; [|by apply Hweaken].
        eexists key, _. split; [done|]. simpl. apply list_elem_of_here.
      * by apply Hdel.
    + destruct (IH (<[key := value + 1]> dict) nlp c)
        as (Hw & Hd & Hc & Hs & (new & Hn & Hsub) & (rs & He & Hrs) & Hv).
      split_and!; try done.
      * exists new. split; [done|]. by apply sublist_cons.
      * exists rs. split; [done|]. by apply Hweaken.
      * intros q v' Hq.
        destruct (Hv q v' Hq) as [[Hnot Hq']|(v & Hin & ?)].
        -- apply lookup_insert_Some in Hq' as [[<- <-]|[Hne Hq']].
           ++ right. exists value. split; [apply list_elem_of_here|].
              split; [done|]. unfold outcome in Ho.
              destruct (negb (fileExists (world c) key)); [done|].
              destruct (isValidTorrent (world c) key); [done|].
              destruct (MAX_PARTIAL_RETRIES <=? value) eqn:E; [done|].
              by apply Z.leb_gt in E.
           ++ left. split; [|done]. simpl. apply not_elem_of_cons.
              split; [congruence | done].
        -- right. exists v. split; [|done]. by apply list_elem_of_further.
Qed.

Lemma outcome_ext (w w' : World) (path : string) (value : Z) :
  files w !! path = files w' !! path ->
  outcome w path value = outcome w' path value.
Proof.
  intros H. unfold outcome, fileExists, isValidTorrent. by rewrite H.
Qed.

Lemma fileExists_ext (w w' : World) (path : string) :
  files w !! path = files w' !! path -> fileExists w path = fileExists w' path.
Proof. intros H. unfold fileExists. by rewrite H. Qed.

(** A path that is not among the entries: the loop does not touch its
    dictionary entry, does not report it and does not rename it. *)
Lemma removeIfLoop_other (q : string) (entries : list (string * Z)) :
  q ∉ entries.*1 ->
  forall (dict : gmap string Z) (nlp : list string) (c : Config),
    let r := removeIfLoop entries dict nlp c in
    loopDict r !! q = dict !! q
    /\ (q ∈ loopList r <-> q ∈ nlp)
    /\ (exists rs, effects (loopConfig r) = effects c ++ rs
                   /\ forall n ok, Rename q n ok ∉ rs).
Proof.
  induction entries as [|[key value] rest IH]; intros Hq dict nlp c.
  - simpl. split_and!; [done | done |]. exists []. rewrite app_nil_r.
    split; [done|]. intros n ok. apply not_elem_of_nil.
  - intros r. subst r. rewrite removeIfLoop_cons.
    apply not_elem_of_cons in Hq as [Hne Hq]. simpl in Hne.
    specialize (IH Hq).
    destruct (outcome (world c) key value).
    + destruct (IH (delete key dict) nlp c) as (Hd & Hl & He).
      split; [by rewrite Hd, lookup_delete_ne|]. done.
    + destruct (IH (delete key dict) (nlp ++ [key]) c) as (Hd & Hl & He).
      split; [by rewrite Hd, lookup_delete_ne|]. split; [|done].
      rewrite Hl, elem_of_app, list_elem_of_singleton. naive_solver.
    + destruct (IH (delete key dict) nlp
                  (snd (QFile.rename key (key +:+ ".invalid") c)))
        as (Hd & Hl & rs & He & Hrs).
      split; [by rewrite Hd, lookup_delete_ne|]. split; [done|].
      rewrite rename_effects, <- app_assoc in He.
      eexists. split; [exact He|]. intros n ok.
      rewrite elem_of_app, list_elem_of_singleton. naive_solver.
    + destruct (IH (<[key := value + 1]> dict) nlp c) as (Hd & Hl & He).
      split; [by rewrite Hd, lookup_insert_ne|]. done.
Qed.

(** The loop changes the files only at the entries it renames and at the
    names it renames them to. *)
Lemma removeIfLoop_files (x : string) (entries : list (string * Z)) :
  (forall p, p ∈ entries.*1 -> x <> p /\ x <> p +:+ ".invalid") ->
  forall (dict : gmap string Z) (nlp : list string) (c : Config),
    files (world (loopConfig (removeIfLoop entries dict nlp c))) !! x
    = files (world c) !! x.
Proof.
  induction entries as [|[key value] rest IH]; intros Hx dict nlp c.
  - done.
  - rewrite removeIfLoop_cons.
    assert (Hrest : forall p, p ∈ rest.*1 ->
                      x <> p /\ x <> p +:+ ".invalid").
    { intros p Hp. apply Hx. simpl. by apply list_elem_of_further. }
    destruct (Hx key) as [Hk Hk']; [simpl; apply list_elem_of_here|].
    specialize (IH Hrest).
    destruct (outcome (world c) key value); rewrite IH; try done.
    by apply rename_files_other.
Qed.

(** A tracked entry, when no tracked path is another tracked path with the
    invalidation suffix appended: the loop treats it by what the world says
    about its own file when the loop starts. *)
Lemma removeIfLoop_here (q : string) (v : Z) (entries : list (string * Z)) :
  NoDup entries.*1 ->
  (q, v) ∈ entries ->
  (forall p, p ∈ entries.*1 ->
     q <> p +:+ ".invalid" /\ p <> q +:+ ".invalid") ->
  forall (dict : gmap string Z) (nlp : list string) (c : Config),
    let r := removeIfLoop entries dict nlp c in
    let o := outcome (world c) q v in
    loopDict r !! q
    = match o with StillPartial => Some (v + 1) | _ => None end
    /\ (q ∈ loopList r <-> q ∈ nlp \/ o = BecameValid)
    /\ (exists rs,
          effects (loopConfig r) = effects c ++ rs
          /\ forall n ok,
               Rename q n ok ∈ rs <->
               o = GaveUp /\ n = q +:+ ".invalid"
               /\ ok = negb (fileExists (world c) (q +:+ ".invalid")))
    /\ (o = GaveUp -> fileExists (world c) (q +:+ ".invalid") = false ->
        files (world (loopConfig r)) !! q = None
        /\ files (world (loopConfig r)) !! (q +:+ ".invalid")
           = files (world c) !! q)
    /\ (o <> GaveUp ->
        files (world (loopConfig r)) !! q = files (world c) !! q).
Proof.
  induction entries as [|[key value] rest IH];
    intros Hnd Hin Hwf dict nlp c; [by apply elem_of_nil in Hin|].
  intros r o. subst r. simpl in Hnd. apply NoDup_cons in Hnd as [Hk Hnd].
  assert (Hwf' : forall p, p ∈ rest.*1 ->
                   q <> p +:+ ".invalid" /\ p <> q +:+ ".invalid").
  { intros p Hp. apply Hwf. simpl. by apply list_elem_of_further. }
  destruct (decide (key = q)) as [->|Hne].
  - (* the entry itself *)
    assert (value = v) as ->.
    { apply elem_of_cons in Hin as [[= ->]|Hin]; [done|].
      exfalso. apply Hk. apply list_elem_of_fmap. by exists (q, v). }
    assert (Hfq : forall p, p ∈ rest.*1 -> q <> p /\ q <> p +:+ ".invalid").
    { intros p Hp. split; [by intros ->|by apply Hwf']. }
    assert (Hfi : forall p, p ∈ rest.*1 ->
              q +:+ ".invalid" <> p
              /\ q +:+ ".invalid" <> p +:+ ".invalid").
    { intros p Hp. split.
      - intros <-. by apply (Hwf' _ Hp).
      - intros ->%append_suffix_inj. done. }
    rewrite removeIfLoop_cons. fold o.
    assert (Hex : o = GaveUp -> fileExists (world c) q = true).
    { subst o. unfold outcome.
      by destruct (fileExists (world c) q). }
    destruct o eqn:Ho.
    + destruct (removeIfLoop_other q rest Hk (delete q dict) nlp c)
        as (Hd & Hl & rs & He & Hrs).
      rewrite Hd, lookup_delete_eq, Hl, removeIfLoop_files by done.
      split_and!; [done | naive_solver | | done | done].
      exists rs. naive_solver.
    + destruct (removeIfLoop_other q rest Hk (delete q dict) (nlp ++ [q]) c)
        as (Hd & Hl & rs & He & Hrs).
      rewrite Hd, lookup_delete_eq, Hl, removeIfLoop_files by done.
      split_and!; [done | | | done | done].
      * rewrite elem_of_app, list_elem_of_singleton. naive_solver.
      * exists rs. naive_solver.
    + set (c1 := snd (QFile.rename q (q +:+ ".invalid") c)).
      destruct (removeIfLoop_other q rest Hk (delete q dict) nlp c1)
        as (Hd & Hl & rs & He & Hrs).
      rewrite Hd, lookup_delete_eq, Hl.
      rewrite !removeIfLoop_files by done.
      pose proof (rename_succeeds q (q +:+ ".invalid") c) as Hok.
      rewrite (Hex eq_refl) in Hok. simpl in Hok.
      split_and!; [done | naive_solver | | | done].
      * subst c1. rewrite rename_effects, <- app_assoc in He.
        eexists. split; [exact He|]. intros n ok.
        rewrite elem_of_app, list_elem_of_singleton, Hok. naive_solver.
      * intros _ Hfree. subst c1. apply rename_files_done;
          [rewrite Hok; by rewrite Hfree | apply append_invalid_ne].
    + destruct (removeIfLoop_other q rest Hk (<[q := v + 1]> dict) nlp c)
        as (Hd & Hl & rs & He & Hrs).
      rewrite Hd, lookup_insert_eq, Hl, removeIfLoop_files by done.
      split_and!; [done | naive_solver | | done | done].
      exists rs. naive_solver.
  - (* another entry comes first *)
    assert (Hin' : (q, v) ∈ rest).
    { apply elem_of_cons in Hin as [[= ? ?]|Hin]; [congruence | done]. }
    destruct (Hwf key) as [Hq1 Hq2]; [simpl; apply list_elem_of_here|].
    rewrite removeIfLoop_cons.
    specialize (IH Hnd Hin' Hwf').
    destruct (outcome (world c) key value) eqn:Hk'.
    + apply IH.
    + destruct (IH (delete key dict) (nlp ++ [key]) c)
        as (Hd & Hl & He & Hr & Hn).
      split_and!; [done | | done | done | done].
      rewrite Hl, elem_of_app, list_elem_of_singleton. naive_solver.
    + set (c1 := snd (QFile.rename key (key +:+ ".invalid") c)).
      assert (Hf1 : files (world c1) !! q = files (world c) !! q).
      { subst c1. by apply rename_files_other. }
      assert (Hf2 : files (world c1) !! (q +:+ ".invalid")
                    = files (world c) !! (q +:+ ".invalid")).
      { subst c1. apply rename_files_other;
          [intros H; by apply Hq2 | intros H%append_suffix_inj; by apply Hne]. }
      destruct (IH (delete key dict) nlp c1)
        as (Hd & Hl & (rs & He & Hrs) & Hr & Hn).
      rewrite (outcome_ext _ _ _ _ Hf1) in Hd, Hl, Hrs, Hr, Hn.
      rewrite (fileExists_ext _ _ _ Hf2) in Hrs, Hr. rewrite Hf1 in Hr, Hn.
      split_and!; [done | done | | done | done].
      subst c1. rewrite rename_effects, <- app_assoc in He.
      eexists. split; [exact He|]. intros n ok.
      rewrite elem_of_app, list_elem_of_singleton, Hrs. naive_solver.
    + apply IH.
Qed.

(** ** What a handler has added to the effects *)

Lemma since_app (c c' : Config) (es : list Effect) :
  effects c' = effects c ++ es -> since c c' = es.
Proof. intros H. unfold since. by rewrite H, drop_app_length. Qed.

Lemma since_trans (c c' c'' : Config) (es es' : list Effect) :
  effects c' = effects c ++ es -> effects c'' = effects c' ++ es' ->
  since c c'' = since c c' ++ since c' c''.
Proof.
  intros H H'. rewrite (since_app _ _ _ H), (since_app _ _ _ H').
  apply since_app. by rewrite H', H, <- app_assoc.
Qed.

Lemma reported_app (es es' : list Effect) :
  reported (es ++ es') = reported es ++ reported es'.
Proof.
  induction es as [|[] es IH]; simpl; try done.
  by rewrite IH, app_assoc.
Qed.

Lemma reported_report (batch : list string) : reported (report batch) = batch.
Proof. destruct batch; simpl; [done|]. by rewrite app_nil_r. Qed.

Lemma reported_renames (keys : list string) (rs : list Effect) :
  Forall (isRenameOf keys) rs -> reported rs = [].
Proof.
  induction 1 as [|e rs (p & ok & -> & _) _ IH]; [done|]. by simpl.
Qed.

Lemma reportCount_app (path : string) (es es' : list Effect) :
  reportCount path (es ++ es')
  = (reportCount path es + reportCount path es')%nat.
Proof.
  unfold reportCount. by rewrite reported_app, filter_app, length_app.
Qed.

Lemma filter_eq_absent (path : string) (l : list string) :
  path ∉ l -> filter (fun p => p = path) l = [].
Proof.
  induction l as [|x l IH]; [done|].
  intros [Hne Hl]%not_elem_of_cons.
  rewrite filter_cons_False by congruence. by apply IH.
Qed.

Lemma reportCount_0 (path : string) (es : list Effect) :
  path ∉ reported es -> reportCount path es = 0%nat.
Proof. intros H. unfold reportCount. by rewrite filter_eq_absent. Qed.

Lemma reportCount_1 (path : string) (es : list Effect) :
  path ∈ reported es -> NoDup (reported es) -> reportCount path es = 1%nat.
Proof.
  unfold reportCount. induction (reported es) as [|x l IH];
    [by intros ?%elem_of_nil|].
  intros Hin [Hx Hnd]%NoDup_cons.
  destruct (decide (x = path)) as [->|Hne].
  - rewrite filter_cons_True by done. simpl. f_equal.
    by rewrite filter_eq_absent.
  - rewrite filter_cons_False by done. apply IH; [|done].
    apply elem_of_cons in Hin as [?|?]; [congruence | done].
Qed.

(** ** The reconciliation tick as a whole *)

Lemma reportTorrents_eq (batch : list string) (c : Config) :
  reportTorrents batch c
  = mkConfig (watcher c) (world c) (effects c ++ report batch).
Proof.
  destruct batch; simpl; [|done]. by rewrite app_nil_r, Config_eta.
Qed.

Lemma processPartialTorrents_eq (c : Config) :
  let r := tickLoop c in
  processPartialTorrents c
  = mkConfig
      (setPartialTorrentTimer
         (timerAfterTick (loopDict r) (m_partialTorrentTimer (watcher c)))
         (setPartialTorrents (loopDict r) (watcher c)))
      (world (loopConfig r))
      (effects (loopConfig r) ++ report (loopList r)).
Proof.
  intros r. subst r. unfold processPartialTorrents, tickLoop.
  pose proof (removeIfLoop_frame
                (map_to_list (m_partialTorrents (watcher c)))
                (m_partialTorrents (watcher c)) [] c) as (Hw & _).
  destruct (removeIfLoop _ _ _ _) as [[dict nlp] c1].
  unfold loopDict, loopList, loopConfig in *. simpl in *.
  rewrite reportTorrents_eq, Hw. unfold timerAfterTick. simpl.
  by destruct (bool_decide (dict = ∅)).
Qed.

(** The effects of one tick: the renames of the loop, then the report. *)
Lemma tick_effects (c : Config) :
  exists rs,
    effects (processPartialTorrents c)
    = effects c ++ rs ++ report (loopList (tickLoop c))
    /\ effects (loopConfig (tickLoop c)) = effects c ++ rs
    /\ Forall (isRenameOf (map_to_list (m_partialTorrents (watcher c))).*1) rs
    /\ NoDup (loopList (tickLoop c))
    /\ reported (since c (processPartialTorrents c)) = loopList (tickLoop c).
Proof.
  rewrite processPartialTorrents_eq. simpl.
  destruct (removeIfLoop_frame
              (map_to_list (m_partialTorrents (watcher c)))
              (m_partialTorrents (watcher c)) [] c)
    as (_ & _ & _ & _ & (new & Hn & Hsub) & (rs & He & Hrs) & _).
  fold (tickLoop c) in Hn, He. exists rs.
  assert (Hnd : NoDup (loopList (tickLoop c))).
  { rewrite Hn. simpl. eapply sublist_NoDup; [|exact Hsub].
    apply NoDup_fst_map_to_list. }
  split_and!; try done.
  - by rewrite He, <- app_assoc.
  - erewrite since_app by (simpl; by rewrite He, <- app_assoc).
    by rewrite reported_app, (reported_renames _ _ Hrs), reported_report.
Qed.

Lemma tick_keys (c : Config) (q : string) (v' : Z) :
  m_partialTorrents (watcher (processPartialTorrents c)) !! q = Some v' ->
  exists v, m_partialTorrents (watcher c) !! q = Some v
            /\ v' = v + 1 /\ v < MAX_PARTIAL_RETRIES.
Proof.
  rewrite processPartialTorrents_eq. simpl. intros Hq.
  destruct (removeIfLoop_frame
              (map_to_list (m_partialTorrents (watcher c)))
              (m_partialTorrents (watcher c)) [] c)
    as (_ & _ & _ & _ & _ & _ & Hv).
  fold (tickLoop c) in Hv.
  destruct (Hv q v' Hq) as [[Hnot Hm]|(v & Hin & ? & ?)].
  - exfalso. apply Hnot. apply list_elem_of_fmap. exists (q, v').
    split; [done|]. by apply elem_of_map_to_list.
  - exists v. split; [|done]. by apply elem_of_map_to_list.
Qed.

Lemma trackerSound_tick (c : Config) :
  trackerSound (m_partialTorrents (watcher c)) ->
  trackerSound (m_partialTorrents (watcher (processPartialTorrents c))).
Proof.
  intros Hs p vp Hp q vq Hq.
  apply tick_keys in Hp as (? & Hp & _). apply tick_keys in Hq as (? & Hq & _).
  by eapply Hs.
Qed.

(** One tracked entry through one tick. *)
Lemma tick_entry (c : Config) (q : string) (v : Z) :
  trackerSound (m_partialTorrents (watcher c)) ->
  m_partialTorrents (watcher c) !! q = Some v ->
  let c' := processPartialTorrents c in
  let o := outcome (world c) q v in
  m_partialTorrents (watcher c') !! q
  = match o with StillPartial => Some (v + 1) | _ => None end
  /\ (q ∈ reported (since c c') <-> o = BecameValid)
  /\ (forall n ok,
        Rename q n ok ∈ since c c' <->
        o = GaveUp /\ n = q +:+ ".invalid"
        /\ ok = negb (fileExists (world c) (q +:+ ".invalid")))
  /\ (o = GaveUp -> fileExists (world c) (q +:+ ".invalid") = false ->
      files (world c') !! q = None
      /\ files (world c') !! (q +:+ ".invalid") = files (world c) !! q)
  /\ (o <> GaveUp -> files (world c') !! q = files (world c) !! q).
Proof.
  intros Hs Hq c' o.
  destruct (tick_effects c) as (rs & He & Hl & Hrs & Hnd & Hrep).
  fold c' in He, Hrep.
  assert (Hwf : forall p,
            p ∈ (map_to_list (m_partialTorrents (watcher c))).*1 ->
            q <> p +:+ ".invalid" /\ p <> q +:+ ".invalid").
  { intros p ([p' vp] & -> & Hp%elem_of_map_to_list)%list_elem_of_fmap.
    simpl. split; [by eapply (Hs p' vp Hp q v) | by eapply (Hs q v Hq p' vp)]. }
  destruct (removeIfLoop_here q v
              (map_to_list (m_partialTorrents (watcher c)))
              (NoDup_fst_map_to_list _)
              (proj2 (elem_of_map_to_list _ _ _) Hq) Hwf
              (m_partialTorrents (watcher c)) [] c)
    as (Hd & Hin & (rs' & He' & Hrs') & Hr & Hn).
  fold (tickLoop c) in Hd, Hin, He', Hr, Hn. fold o in Hd, Hin, Hrs', Hr, Hn.
  rewrite Hl in He'. apply app_inv_head in He' as <-.
  subst c'. rewrite Hrep. rewrite (since_app _ _ _ He).
  rewrite processPartialTorrents_eq. simpl.
  split_and!; [done | | | done | done].
  - rewrite Hin. rewrite elem_of_nil. tauto.
  - intros n ok. rewrite elem_of_app, Hrs'.
    assert (Rename q n ok ∉ report (loopList (tickLoop c))).
    { destruct (loopList (tickLoop c)); simpl;
        [apply not_elem_of_nil|].
      by intros [=]%list_elem_of_singleton. }
    tauto.
Qed.

(** C7.  One reconciliation tick treats every tracked path by what the world
    says about that path alone.  A file that no longer exists: the entry is
    dropped, nothing is reported, nothing is renamed.  A file the parser now
    accepts: the entry is dropped and the path is in the batch of the tick.  A
    file that still fails with the retry count at the ceiling or above: the
    file is renamed to its name with [.invalid] appended and the entry is
    dropped without a report.  Otherwise the retry count goes up by one and
    the entry is kept. *)
Theorem reconciliation_transition (c : Config) (q : string) (v : Z) :
  trackerSound (m_partialTorrents (watcher c)) ->
  m_partialTorrents (watcher c) !! q = Some v ->
  let c' := processPartialTorrents c in
  let tracked' := m_partialTorrents (watcher c') !! q in
  let isReported := q ∈ reported (since c c') in
  let isRenamed := exists n ok, Rename q n ok ∈ since c c' in
  (fileExists (world c) q = false ->
     tracked' = None /\ ~ isReported /\ ~ isRenamed)
  /\ (fileExists (world c) q = true -> isValidTorrent (world c) q = true ->
      tracked' = None /\ isReported /\ ~ isRenamed)
  /\ (fileExists (world c) q = true -> isValidTorrent (world c) q = false ->
      MAX_PARTIAL_RETRIES <= v ->
      tracked' = None /\ ~ isReported
      /\ Rename q (q +:+ ".invalid")
           (negb (fileExists (world c) (q +:+ ".invalid"))) ∈ since c c')
  /\ (fileExists (world c) q = true -> isValidTorrent (world c) q = false ->
      v < MAX_PARTIAL_RETRIES ->
      tracked' = Some (v + 1) /\ ~ isReported /\ ~ isRenamed).
Proof.
  intros Hs Hq c' tracked' isReported isRenamed.
  destruct (tick_entry c q v Hs Hq) as (Hd & Hrep & Hren & _).
  fold c' in Hd, Hrep, Hren. fold tracked' in Hd. fold isReported in Hrep.
  unfold outcome in Hd, Hrep, Hren.
  split_and!.
  - intros He. rewrite He in Hd, Hrep, Hren. simpl in *.
    split_and!; [done | by rewrite Hrep |].
    intros (n & ok & H%Hren). by destruct H.
  - intros He Hv. rewrite He, Hv in Hd, Hrep, Hren. simpl in *.
    split_and!; [done | by apply Hrep |].
    intros (n & ok & H%Hren). by destruct H.
  - intros He Hv Hmax. rewrite He, Hv in Hd, Hrep, Hren. simpl in *.
    apply Z.leb_le in Hmax. rewrite Hmax in Hd, Hrep, Hren.
    split_and!; [done | by rewrite Hrep | by apply Hren].
  - intros He Hv Hmax. rewrite He, Hv in Hd, Hrep, Hren. simpl in *.
    apply Z.leb_gt in Hmax. rewrite Hmax in Hd, Hrep, Hren.
    split_and!; [done | by rewrite Hrep |].
    intros (n & ok & H%Hren). by destruct H.
Qed.

Lemma reconciliation_transition_witness :
  trackerSound (m_partialTorrents (watcher TickExample.c))
  /\ m_partialTorrents (watcher (processPartialTorrents TickExample.c))
     !! "/d/b.torrent" = Some 1.
Proof.
  assert (Hs : trackerSound (m_partialTorrents (watcher TickExample.c))).
  { apply (bool_decide_unpack _). vm_compute. exact I. }
  split; [exact Hs|].
  assert (Hq : m_partialTorrents (watcher TickExample.c) !! "/d/b.torrent"
               = Some 0) by (vm_compute; reflexivity).
  destruct (reconciliation_transition TickExample.c "/d/b.torrent" 0 Hs Hq)
    as (_ & _ & _ & Hkeep).
  apply Hkeep; vm_compute; reflexivity.
Defined.

(** ** Sequences of reconciliation ticks *)

Lemma since_tick (w : World) (c : Config) :
  since c (tick w c) = since (setWorld w c) (tick w c).
Proof. done. Qed.

Lemma tick_extends (w : World) (c : Config) :
  exists es, effects (tick w c) = effects c ++ es.
Proof.
  destruct (tick_effects (setWorld w c)) as (rs & He & _).
  eexists. exact He.
Qed.

Lemma reconcile_extends (ws : list World) (c : Config) :
  exists es, effects (reconcile c ws) = effects c ++ es.
Proof.
  revert c. induction ws as [|w ws IH]; intros c; simpl.
  - exists []. by rewrite app_nil_r.
  - destruct (tick_extends w c) as [es He].
    destruct (IH (tick w c)) as [es' He'].
    exists (es ++ es'). by rewrite He', He, app_assoc.
Qed.

Lemma since_reconcile_cons (w : World) (ws : list World) (c : Config) :
  since c (reconcile c (w :: ws))
  = since c (tick w c) ++ since (tick w c) (reconcile (tick w c) ws).
Proof.
  destruct (tick_extends w c) as [es He].
  destruct (reconcile_extends ws (tick w c)) as [es' He'].
  by apply (since_trans _ _ _ es es').
Qed.

Lemma since_reconcile_snoc (w : World) (ws : list World) (c : Config) :
  since c (tick w (reconcile c ws))
  = since c (reconcile c ws)
    ++ since (reconcile c ws) (tick w (reconcile c ws)).
Proof.
  destruct (reconcile_extends ws c) as [es He].
  destruct (tick_extends w (reconcile c ws)) as [es' He'].
  by apply (since_trans _ _ _ es es').
Qed.

Lemma since_reconcile_app (ws ws' : list World) (c : Config) :
  since c (reconcile (reconcile c ws) ws')
  = since c (reconcile c ws)
    ++ since (reconcile c ws) (reconcile (reconcile c ws) ws').
Proof.
  destruct (reconcile_extends ws c) as [es He].
  destruct (reconcile_extends ws' (reconcile c ws)) as [es' He'].
  by apply (since_trans _ _ _ es es').
Qed.

Lemma trackerSound_reconcile (ws : list World) (c : Config) :
  trackerSound (m_partialTorrents (watcher c)) ->
  trackerSound (m_partialTorrents (watcher (reconcile c ws))).
Proof.
  revert c. induction ws as [|w ws IH]; intros c Hs; [done|].
  simpl. apply IH. by apply (trackerSound_tick (setWorld w c)).
Qed.

(** A tick on a failing file, by its retry count. *)
Lemma tick_failing (w : World) (c : Config) (p : string) (v : Z) :
  trackerSound (m_partialTorrents (watcher c)) ->
  m_partialTorrents (watcher c) !! p = Some v ->
  failing w p ->
  m_partialTorrents (watcher (tick w c)) !! p
  = (if v <? MAX_PARTIAL_RETRIES then Some (v + 1) else None)
  /\ (p ∉ reported (since c (tick w c)))
  /\ (forall n ok,
        Rename p n ok ∈ since c (tick w c) <->
        MAX_PARTIAL_RETRIES <= v /\ n = p +:+ ".invalid"
        /\ ok = negb (fileExists w (p +:+ ".invalid")))
  /\ (MAX_PARTIAL_RETRIES <= v -> fileExists w (p +:+ ".invalid") = false ->
      files (world (tick w c)) !! p = None
      /\ files (world (tick w c)) !! (p +:+ ".invalid") = Some false)
  /\ (v < MAX_PARTIAL_RETRIES -> files (world (tick w c)) !! p = Some false).
Proof.
  intros Hs Hp Hf. rewrite since_tick. unfold tick.
  destruct (tick_entry (setWorld w c) p v Hs Hp) as (Hd & Hrep & Hren & Hr & Hn).
  simpl in *.
  assert (Ho : outcome w p v
               = if v <? MAX_PARTIAL_RETRIES then StillPartial else GaveUp).
  { unfold outcome, fileExists, isValidTorrent. rewrite Hf.
    rewrite bool_decide_eq_true_2 by eauto.
    rewrite bool_decide_eq_false_2 by done. simpl.
    rewrite (Z.leb_antisym v MAX_PARTIAL_RETRIES).
    by destruct (v <? MAX_PARTIAL_RETRIES). }
  rewrite Ho in Hd, Hrep, Hren, Hr, Hn.
  destruct (v <? MAX_PARTIAL_RETRIES) eqn:Hlt.
  - apply Z.ltb_lt in Hlt.
    split_and!; [done | by rewrite Hrep | | lia |].
    + intros n ok. rewrite Hren. split; [by intros [? _] | lia].
    + intros _. rewrite Hn by done. exact Hf.
  - apply Z.ltb_ge in Hlt.
    split_and!; [done | by rewrite Hrep | | | lia].
    + intros n ok. rewrite Hren. tauto.
    + intros _ Hfree. rewrite <- Hf. by apply Hr.
Qed.

(** A run of ticks on a file that keeps failing, as long as the retry count
    stays within the ceiling: the count goes up by one per tick, and the path
    is neither reported nor renamed. *)
Lemma reconcile_failing (p : string) (ws : list World) :
  forall (c : Config) (v : Z),
    trackerSound (m_partialTorrents (watcher c)) ->
    m_partialTorrents (watcher c) !! p = Some v ->
    Forall (fun w => failing w p) ws ->
    v + Z.of_nat (length ws) <= MAX_PARTIAL_RETRIES ->
    m_partialTorrents (watcher (reconcile c ws)) !! p
    = Some (v + Z.of_nat (length ws))
    /\ (p ∉ reported (since c (reconcile c ws)))
    /\ (forall n ok, (Rename p n ok ∉ since c (reconcile c ws))).
Proof.
  induction ws as [|w ws IH]; intros c v Hs Hp Hf Hle.
  - simpl. rewrite Z.add_0_r. unfold since. rewrite drop_all.
    split_and!; [done | apply not_elem_of_nil |].
    intros n ok. apply not_elem_of_nil.
  - apply Forall_cons in Hf as [Hw Hf]. simpl length in *.
    destruct (tick_failing w c p v Hs Hp Hw) as (Hd & Hrep & Hren & _).
    assert (Hlt : (v <? MAX_PARTIAL_RETRIES) = true) by (apply Z.ltb_lt; lia).
    rewrite Hlt in Hd.
    destruct (IH (tick w c) (v + 1)) as (Hd' & Hrep' & Hren');
      [by apply (trackerSound_tick (setWorld w c)) | done | done | lia |].
    rewrite since_reconcile_cons, reported_app.
    change (reconcile c (w :: ws)) with (reconcile (tick w c) ws).
    split_and!.
    + rewrite Hd'. f_equal. lia.
    + rewrite elem_of_app. tauto.
    + intros n ok. rewrite elem_of_app, Hren. intros [H|H]; [lia|].
      by apply (Hren' n ok).
Qed.

(** A path the tracker does not hold is not touched by any run of ticks. *)
Lemma reconcile_untracked (p : string) (ws : list World) :
  forall (c : Config),
    m_partialTorrents (watcher c) !! p = None ->
    m_partialTorrents (watcher (reconcile c ws)) !! p = None
    /\ (p ∉ reported (since c (reconcile c ws)))
    /\ (forall n ok, (Rename p n ok ∉ since c (reconcile c ws))).
Proof.
  induction ws as [|w ws IH]; intros c Hp.
  - simpl. unfold since. rewrite drop_all.
    split_and!; [done | apply not_elem_of_nil |].
    intros n ok. apply not_elem_of_nil.
  - assert (Hk : p ∉ (map_to_list
                        (m_partialTorrents (watcher (setWorld w c)))).*1).
    { intros ([p' v] & -> & Hin%elem_of_map_to_list)%list_elem_of_fmap.
      simpl in *. congruence. }
    destruct (removeIfLoop_other p _ Hk
                (m_partialTorrents (watcher (setWorld w c))) []
                (setWorld w c)) as (Hd & Hl & rs & He & Hrs).
    fold (tickLoop (setWorld w c)) in Hd, Hl, He.
    destruct (tick_effects (setWorld w c)) as (rs' & He' & Hl' & _ & _ & Hrep).
    rewrite Hl' in He. apply app_inv_head in He as ->.
    assert (Hd' : m_partialTorrents (watcher (tick w c)) !! p = None).
    { unfold tick. rewrite processPartialTorrents_eq. simpl.
      rewrite Hd. exact Hp. }
    destruct (IH (tick w c) Hd') as (Hd'' & Hrep' & Hren').
    rewrite since_reconcile_cons, reported_app.
    change (reconcile c (w :: ws)) with (reconcile (tick w c) ws).
    rewrite since_tick. fold (tick w c) in Hrep. rewrite Hrep.
    split_and!; [done | |].
    + rewrite elem_of_app, Hl, elem_of_nil. tauto.
    + intros n ok. rewrite elem_of_app.
      unfold tick. rewrite (since_app _ _ _ He'). rewrite elem_of_app.
      intros [[H|H]|H].
      * by apply (Hrs n ok).
      * destruct (loopList (tickLoop (setWorld w c)));
          [by apply elem_of_nil in H|].
        by apply list_elem_of_singleton in H.
      * by apply (Hren' n ok).
Qed.

(** ** The two scans as a whole *)

Lemma addTorrentsFromDir_scan (dir : string) (torrents : list string)
    (c : Config) :
  addTorrentsFromDir dir torrents c
  = (torrents ++ readyPaths (world c) (m_filters (watcher c)) dir,
     setWatcher (scanWatcher (world c) (watcher c) dir) c).
Proof. apply addTorrentsFromDir_eq. Qed.

Lemma scanWatcher_filters (w : World) (f : FileSystemWatcher) (dir : string) :
  m_filters (scanWatcher w f dir) = m_filters f.
Proof. done. Qed.

Lemma scanWatcher_fold_filters (w : World) (dirs : list string) :
  forall f, m_filters (foldl (scanWatcher w) f dirs) = m_filters f.
Proof. induction dirs as [|d dirs IH]; intros f; simpl; [done|]. by rewrite IH. Qed.

Lemma scanWatcher_fold_rest (w : World) (dirs : list string) :
  forall f,
    m_watchedFolders (foldl (scanWatcher w) f dirs) = m_watchedFolders f
    /\ m_watchTimer (foldl (scanWatcher w) f dirs) = m_watchTimer f
    /\ baseDirectories (foldl (scanWatcher w) f dirs) = baseDirectories f.
Proof.
  induction dirs as [|d dirs IH]; intros f; simpl; [done|].
  destruct (IH (scanWatcher w f d)) as (-> & -> & ->). done.
Qed.

Lemma scanNetworkFolders_fold (dirs : list string) :
  forall (torrents : list string) (c : Config),
    foldl (fun acc dir => addTorrentsFromDir dir (fst acc) (snd acc))
      (torrents, c) dirs
    = (torrents
         ++ flat_map (readyPaths (world c) (m_filters (watcher c))) dirs,
       setWatcher (foldl (scanWatcher (world c)) (watcher c) dirs) c).
Proof.
  induction dirs as [|d dirs IH]; intros torrents c; simpl.
  - by rewrite app_nil_r, setWatcher_id.
  - rewrite addTorrentsFromDir_scan, IH. simpl.
    by rewrite <- app_assoc.
Qed.

Lemma scanLocalFolder_eq (path : string) (c : Config) :
  scanLocalFolder path c
  = mkConfig (scanWatcher (world c) (watcher c) path) (world c)
      (effects c ++ report (readyPaths (world c) (m_filters (watcher c)) path)).
Proof.
  unfold scanLocalFolder. rewrite addTorrentsFromDir_scan. simpl.
  by rewrite reportTorrents_eq.
Qed.

Lemma scanNetworkFolders_eq (c : Config) :
  let dirs := m_watchedFolders (watcher c) in
  scanNetworkFolders c
  = mkConfig (foldl (scanWatcher (world c)) (watcher c) dirs) (world c)
      (effects c
         ++ report (flat_map (readyPaths (world c) (m_filters (watcher c)))
                      dirs)).
Proof.
  intros dirs. unfold scanNetworkFolders. fold dirs.
  rewrite scanNetworkFolders_fold. simpl. by rewrite reportTorrents_eq.
Qed.

Lemma scanWatcher_tracker (w : World) (f : FileSystemWatcher) (dir p : string)
    (v : Z) :
  m_partialTorrents (scanWatcher w f dir) !! p = Some v ->
  m_partialTorrents f !! p = Some v
  \/ (v = 0 /\ m_partialTorrents f !! p = None
      /\ p ∈ scanPaths w dir (m_filters f)).
Proof.
  unfold scanWatcher. simpl. rewrite registerPartial_lookup.
  destruct (m_partialTorrents f !! p); [by left|].
  case_bool_decide; simpl; [|done].
  destruct (readyFile w p); simpl; [done|]. intros [= <-]. by right.
Qed.

Lemma scanWatcher_fold_tracker (w : World) (dirs : list string) (p : string)
    (v : Z) :
  forall f,
    m_partialTorrents (foldl (scanWatcher w) f dirs) !! p = Some v ->
    m_partialTorrents f !! p = Some v
    \/ (v = 0 /\ exists dir, p ∈ scanPaths w dir (m_filters f)).
Proof.
  induction dirs as [|d dirs IH]; intros f; simpl; [by left|].
  intros [H|(-> & dir & H)]%IH.
  - apply scanWatcher_tracker in H as [H|(-> & _ & H)]; [by left|].
    right. eauto.
  - right. eauto.
Qed.

Lemma readyPaths_scanned (w : World) (nameFilters : list string)
    (dir p : string) :
  p ∈ readyPaths w nameFilters dir -> p ∈ scanPaths w dir nameFilters.
Proof. by intros [_ ?]%list_elem_of_filter. Qed.

(** ** What holds in every configuration the event loop can reach *)

Lemma invariant_ext (c c' : Config) :
  m_filters (watcher c') = m_filters (watcher c) ->
  m_partialTorrents (watcher c') = m_partialTorrents (watcher c) ->
  reported (effects c') = reported (effects c) ->
  m_watchTimer (watcher c') = m_watchTimer (watcher c) ->
  m_watchedFolders (watcher c') = m_watchedFolders (watcher c) ->
  invariant c -> invariant c'.
Proof.
  unfold invariant, watchTimerInv. intros -> -> -> -> ->. done.
Qed.

Lemma reported_statfsDiagnostics (path : string) (r : StatfsResult) :
  reported (statfsDiagnostics path r) = [].
Proof. by destruct r. Qed.

Lemma invariant_initial (w : World) : invariant (initial w).
Proof.
  by split_and!.
Qed.

Lemma invariant_scans (c : Config) (dirs : list string) (batch : list string) :
  (forall p, p ∈ batch ->
     exists dir, p ∈ scanPaths (world c) dir (m_filters (watcher c))) ->
  invariant c ->
  invariant
    (mkConfig (foldl (scanWatcher (world c)) (watcher c) dirs) (world c)
       (effects c ++ report batch)).
Proof.
  intros Hb (Hf & Hm & Hr & Hw).
  destruct (scanWatcher_fold_rest (world c) dirs (watcher c))
    as (Hwf & Hwt & _).
  split_and!; simpl.
  - by rewrite scanWatcher_fold_filters.
  - intros p v [H|(-> & dir & H)]%scanWatcher_fold_tracker.
    + by apply Hm.
    + rewrite Hf in H. apply scanPaths_like_filter in H.
      split; [done|]. unfold MAX_PARTIAL_RETRIES. lia.
  - rewrite reported_app, reported_report. apply Forall_app. split; [done|].
    apply Forall_forall. intros p [dir H]%Hb. rewrite Hf in H.
    by apply scanPaths_like_filter in H.
  - unfold watchTimerInv. by rewrite Hwf, Hwt.
Qed.

Lemma invariant_scanLocalFolder (path : string) (c : Config) :
  invariant c -> invariant (scanLocalFolder path c).
Proof.
  intros H. rewrite scanLocalFolder_eq.
  apply (invariant_scans c [path]); [|done].
  intros p Hp%readyPaths_scanned. eauto.
Qed.

Lemma invariant_scanNetworkFolders (c : Config) :
  invariant c -> invariant (scanNetworkFolders c).
Proof.
  intros H. rewrite scanNetworkFolders_eq.
  apply invariant_scans; [|done].
  intros p (dir & _ & Hp%list_elem_of_In%readyPaths_scanned)
    %list_elem_of_In%in_flat_map.
  eauto.
Qed.

Lemma invariant_tick (c : Config) :
  invariant c -> invariant (processPartialTorrents c).
Proof.
  intros (Hf & Hm & Hr & Hw).
  destruct (tick_effects c) as (rs & He & Hl & Hrs & Hnd & Hrep).
  split_and!.
  - by rewrite processPartialTorrents_eq.
  - intros p v' (v & Hp & -> & Hlt)%tick_keys.
    destruct (Hm p v Hp) as [? ?]. split; [done | lia].
  - rewrite He, !reported_app, (reported_renames _ _ Hrs), reported_report.
    simpl. apply Forall_app. split; [done|].
    destruct (removeIfLoop_frame
                (map_to_list (m_partialTorrents (watcher c)))
                (m_partialTorrents (watcher c)) [] c)
      as (_ & _ & _ & _ & (new & Hn & Hsub) & _).
    fold (tickLoop c) in Hn. rewrite Hn. simpl.
    apply Forall_forall. intros p Hp.
    apply (sublist_subseteq _ _ Hsub) in Hp.
    apply list_elem_of_fmap in Hp as ([p' v] & -> & Hp%elem_of_map_to_list).
    by destruct (Hm p' v Hp).
  - by rewrite processPartialTorrents_eq.
Qed.

Lemma invariant_addPath (path : string) (c : Config) :
  invariant c -> invariant (addPath path c).
Proof.
  intros Hinv. unfold addPath.
  destruct (dirExists (world c) path); simpl; [|done].
  destruct (isNetworkFileSystem_frame path c) as (Hw & Hwo & He).
  destruct (isNetworkFileSystem path c) as [network c1]. simpl in *.
  assert (Hinv1 : invariant c1).
  { apply (invariant_ext c); rewrite ?Hw; try done.
    by rewrite He, reported_app, reported_statfsDiagnostics, app_nil_r. }
  destruct network.
  - destruct Hinv1 as (Hf & Hm & Hr & Ht). unfold watchTimerInv in Ht.
    split_and!.
    + simpl. by destruct (m_watchTimer (watcher c1)).
    + simpl. by destruct (m_watchTimer (watcher c1)).
    + done.
    + unfold watchTimerInv. simpl.
      destruct (m_watchTimer (watcher c1)) as [t|] eqn:E; simpl; rewrite ?E.
      * destruct Ht as (_ & ? & ?). split_and!; [|done|done].
        by destruct (m_watchedFolders (watcher c1)).
      * split_and!; [|done|done].
        by destruct (m_watchedFolders (watcher c1)).
  - apply invariant_scanLocalFolder.
    apply (invariant_ext c1); try done;
      unfold QFileSystemWatcher_addPath;
      by destruct (String.eqb path "" || _).
Qed.

Lemma delete_nonempty (i : nat) (l : list string) :
  delete i l <> [] -> l <> [].
Proof. by destruct l. Qed.

Lemma invariant_removePath (path : string) (c : Config) :
  invariant c -> invariant (removePath path c).
Proof.
  intros (Hf & Hm & Hr & Ht). unfold removePath.
  destruct (findWatchedFolder _ _ _ _) as [i|].
  - destruct (delete i (m_watchedFolders (watcher c))) as [|d rest] eqn:Hd.
    + by split_and!.
    + split_and!; try done. unfold watchTimerInv in *. simpl.
      destruct (m_watchTimer (watcher c)) as [t|].
      * destruct Ht as (_ & ? & ?). by split_and!.
      * rewrite Ht in Hd. by destruct i.
  - by split_and!.
Qed.

Lemma invariant_step (c : Config) (e : Event) :
  invariant c -> invariant (step c e).
Proof.
  intros Hinv. destruct e as [path|path|path| | | |w]; simpl.
  - by apply invariant_addPath.
  - by apply invariant_removePath.
  - case_bool_decide; [by apply invariant_scanLocalFolder | done].
  - destruct (m_watchTimer (watcher c)) as [t|] eqn:Ht; [|done].
    destruct (isActive t) eqn:Ha; [|done].
    apply invariant_scanNetworkFolders.
    destruct Hinv as (Hf & Hm & Hr & Hw). split_and!; try done.
    unfold watchTimerInv in *. rewrite Ht in Hw. simpl.
    destruct Hw as (? & ? & Hs). unfold Timer.expire. by rewrite Hs.
  - destruct (m_partialTorrentTimer (watcher c)) as [t|]; [|done].
    destruct (isActive t); [|done].
    apply invariant_tick. by apply (invariant_ext c).
  - destruct (m_partialTorrentTimer (watcher c)) as [t|]; [|done].
    destruct (deletePending t); [|done]. by apply (invariant_ext c).
  - by apply (invariant_ext c).
Qed.

Lemma invariant_run (events : list Event) :
  forall c, invariant c -> invariant (run c events).
Proof.
  induction events as [|e events IH]; intros c Hinv; [done|].
  simpl. apply IH. by apply invariant_step.
Qed.

Lemma reachable_invariant (c : Config) : reachable c -> invariant c.
Proof.
  intros (w & events & ->). apply invariant_run, invariant_initial.
Qed.

Lemma invariant_trackerSound (c : Config) :
  invariant c -> trackerSound (m_partialTorrents (watcher c)).
Proof.
  intros (_ & Hm & _) p vp Hp q vq Hq ->.
  destruct (Hm _ _ Hq) as [Hl _]. by apply invalid_not_like_filter in Hl.
Qed.

Lemma run_snoc (c : Config) (events : list Event) (e : Event) :
  run c (events ++ [e]) = step (run c events) e.
Proof. unfold run. by rewrite foldl_snoc. Qed.

Lemma reachable_step (c : Config) (e : Event) :
  reachable c -> reachable (step c e).
Proof.
  intros (w & events & ->). exists w, (events ++ [e]). by rewrite run_snoc.
Qed.

Lemma watchTimerInv_armed (f : FileSystemWatcher) :
  watchTimerInv f ->
  (armed (m_watchTimer f) = true <-> m_watchedFolders f <> [])
  /\ (is_Some (m_watchTimer f) <-> m_watchedFolders f <> []).
Proof.
  unfold watchTimerInv, armed. destruct (m_watchTimer f) as [t|].
  - intros (Hne & Ha & _). by split; split; eauto.
  - intros ->. by split; split; try done; intros [? ?].
Qed.

(** ** Adding and removing network folders *)

Lemma QDir_eqb_refl (w : World) (d : string) : QDir.eqb w d d = true.
Proof. unfold QDir.eqb. by rewrite String.eqb_refl. Qed.

(** The loop of [removePath] stops at the first folder that equals [dir]. *)
Lemma findWatchedFolder_first (w : World) (dir : string)
    (l r : list string) (d : string) (k : nat) :
  Forall (fun x => QDir.eqb w x dir = false) l ->
  QDir.eqb w d dir = true ->
  findWatchedFolder w dir (l ++ d :: r) k = Some (k + length l)%nat.
Proof.
  intros Hl Hd. revert k. induction Hl as [|x l Hx Hl IH]; intros k; simpl.
  - rewrite Hd. f_equal. lia.
  - rewrite Hx, IH. f_equal. lia.
Qed.

Lemma findWatchedFolder_None (w : World) (dir : string) (l : list string)
    (k : nat) :
  findWatchedFolder w dir l k = None <->
  Forall (fun x => QDir.eqb w x dir = false) l.
Proof.
  revert k. induction l as [|x l IH]; intros k; simpl.
  - split; [by constructor | done].
  - destruct (QDir.eqb w x dir) eqn:E.
    + split; [done|]. intros [H _]%Forall_cons. congruence.
    + rewrite IH. split; [by constructor | by intros [_ ?]%Forall_cons].
Qed.

(** Where the loop stops there is a folder that equals [dir], and none
    before it does. *)
Lemma findWatchedFolder_Some (w : World) (dir : string) (l : list string)
    (k i : nat) :
  findWatchedFolder w dir l k = Some i ->
  exists front d back,
    l = front ++ d :: back /\ i = (k + length front)%nat
    /\ QDir.eqb w d dir = true
    /\ Forall (fun x => QDir.eqb w x dir = false) front.
Proof.
  revert k. induction l as [|x l IH]; intros k; simpl; [done|].
  destruct (QDir.eqb w x dir) eqn:E.
  - intros [= <-]. exists [], x, l. split_and!; [done | simpl; lia | done |].
    by constructor.
  - intros (front & d & back & -> & -> & Hd & Hf)%IH.
    exists (x :: front), d, back.
    split_and!; [done | simpl; lia | done | by constructor].
Qed.

Lemma delete_middle (l r : list string) (d : string) :
  delete (length l) (l ++ d :: r) = l ++ r.
Proof. induction l as [|x l IH]; simpl; [done | by rewrite IH]. Qed.

(** [removePath] on a path that equals a network folder. *)
Lemma removePath_network (path : string) (c : Config)
    (front back : list string) (d : string) :
  m_watchedFolders (watcher c) = front ++ d :: back ->
  Forall (fun x => QDir.eqb (world c) x path = false) front ->
  QDir.eqb (world c) d path = true ->
  removePath path c
  = setWatcher
      (match front ++ back with
       | [] => setWatchTimer None
                 (setWatchedFolders (front ++ back) (watcher c))
       | _ => setWatchedFolders (front ++ back) (watcher c)
       end) c.
Proof.
  intros Hl Hf Hd. unfold removePath.
  rewrite Hl, (findWatchedFolder_first _ _ _ _ _ 0 Hf Hd). simpl.
  rewrite delete_middle. by destruct (front ++ back).
Qed.

Lemma isNetworkFileSystem_true (path : string) (c : Config) :
  fst (isNetworkFileSystem path c) = true ->
  snd (isNetworkFileSystem path c) = c.
Proof.
  unfold isNetworkFileSystem.
  by destruct (statfs (world c) (statfsArgument path)).
Qed.

Lemma isNetworkFileSystem_world (path : string) (c c' : Config) :
  world c' = world c ->
  fst (isNetworkFileSystem path c') = fst (isNetworkFileSystem path c).
Proof.
  intros H. unfold isNetworkFileSystem. rewrite H.
  by destruct (statfs (world c) (statfsArgument path)).
Qed.

(** [addPath] on an existing folder of a network file system. *)
Lemma addPath_network (path : string) (c : Config) :
  dirExists (world c) path = true ->
  fst (isNetworkFileSystem path c) = true ->
  addPath path c
  = setWatcher
      (setWatchTimer (timerAfterAddPath (m_watchTimer (watcher c)))
         (setWatchedFolders (m_watchedFolders (watcher c) ++ [path])
            (watcher c))) c.
Proof.
  intros He Hn. unfold addPath. rewrite He. simpl.
  pose proof (isNetworkFileSystem_true path c Hn) as Hc.
  destruct (isNetworkFileSystem path c) as [n c1]. simpl in *.
  subst n c1. destruct c as [[fi pt ti wf [t|] bd] w e]; reflexivity.
Qed.

(** C3.  In every configuration the event loop can reach, whichever events
    led there, the network poll timer exists and runs exactly when the list of
    network folders is not empty.  Read from the configuration before the
    call: a [removePath] of the only network folder empties the list and
    discards the timer; a [removePath] of one of several folders takes that
    folder out and leaves the very same timer, running; a [removePath] of a
    path that equals no network folder goes to the base class and touches
    neither the list nor the timer; an [addPath] of a network folder appends
    the folder and leaves a running timer, also when it follows the
    [removePath] that discarded the timer, in which case the timer is made
    anew.  Read from the configuration after the call: the list is empty
    exactly when there is no timer. *)
Theorem watch_timer_iff_network_folders (w : World) (events : list Event) :
  let c := run (initial w) events in
  (armed (m_watchTimer (watcher c)) = true
   <-> m_watchedFolders (watcher c) <> [])
  /\ (is_Some (m_watchTimer (watcher c))
      <-> m_watchedFolders (watcher c) <> [])
  /\ (forall path,
        m_watchedFolders (watcher (removePath path c)) = [] ->
        m_watchTimer (watcher (removePath path c)) = None)
  /\ (forall path,
        m_watchedFolders (watcher (removePath path c)) <> [] ->
        armed (m_watchTimer (watcher (removePath path c))) = true)
  /\ (forall path,
        dirExists (world c) path = true ->
        fst (isNetworkFileSystem path c) = true ->
        armed (m_watchTimer (watcher (addPath path c))) = true
        /\ path ∈ m_watchedFolders (watcher (addPath path c))
        /\ m_watchedFolders (watcher (addPath path c))
           = m_watchedFolders (watcher c) ++ [path])
  /\ (forall path d,
        m_watchedFolders (watcher c) = [d] ->
        QDir.eqb (world c) d path = true ->
        is_Some (m_watchTimer (watcher c))
        /\ m_watchedFolders (watcher (removePath path c)) = []
        /\ m_watchTimer (watcher (removePath path c)) = None)
  /\ (forall path front d back,
        m_watchedFolders (watcher c) = front ++ d :: back ->
        Forall (fun x => QDir.eqb (world c) x path = false) front ->
        QDir.eqb (world c) d path = true ->
        front ++ back <> [] ->
        m_watchedFolders (watcher (removePath path c)) = front ++ back
        /\ m_watchTimer (watcher (removePath path c))
           = m_watchTimer (watcher c)
        /\ armed (m_watchTimer (watcher (removePath path c))) = true)
  /\ (forall path,
        Forall (fun x => QDir.eqb (world c) x path = false)
          (m_watchedFolders (watcher c)) ->
        removePath path c = QFileSystemWatcher_removePath path c
        /\ m_watchedFolders (watcher (removePath path c))
           = m_watchedFolders (watcher c)
        /\ m_watchTimer (watcher (removePath path c))
           = m_watchTimer (watcher c))
  /\ (forall path d path',
        m_watchedFolders (watcher c) = [d] ->
        QDir.eqb (world c) d path = true ->
        dirExists (world c) path' = true ->
        fst (isNetworkFileSystem path' c) = true ->
        m_watchTimer (watcher (removePath path c)) = None
        /\ m_watchedFolders (watcher (addPath path' (removePath path c)))
           = [path']
        /\ armed (m_watchTimer (watcher (addPath path' (removePath path c))))
           = true).
Proof.
  intros c.
  assert (Hreach : reachable c) by (by exists w, events).
  assert (Hstep : forall e, watchTimerInv (watcher (step c e))).
  { intros e. by apply reachable_invariant, reachable_step. }
  destruct (watchTimerInv_armed (watcher c)) as [Ha Hs];
    [by apply reachable_invariant|].
  assert (Hlast : forall path d,
    m_watchedFolders (watcher c) = [d] ->
    QDir.eqb (world c) d path = true ->
    removePath path c
    = setWatcher (setWatchTimer None (setWatchedFolders [] (watcher c))) c).
  { intros path d Hl Hd.
    by rewrite (removePath_network path c [] [] d Hl). }
  split_and!; [done | done | | | | | | |].
  - intros path Hempty.
    destruct (watchTimerInv_armed _ (Hstep (CallRemovePath path)))
      as [_ Hs'].
    simpl in Hs'. destruct (m_watchTimer (watcher (removePath path c)));
      [|done].
    exfalso. by apply Hs'.
  - intros path Hne.
    destruct (watchTimerInv_armed _ (Hstep (CallRemovePath path)))
      as [Ha' _].
    by apply Ha'.
  - intros path He Hn.
    assert (Hl : m_watchedFolders (watcher (addPath path c))
                 = m_watchedFolders (watcher c) ++ [path]).
    { by rewrite (addPath_network path c He Hn). }
    assert (Hin : path ∈ m_watchedFolders (watcher (addPath path c))).
    { rewrite Hl. apply elem_of_app. right. apply list_elem_of_here. }
    split_and!; [|done|done].
    destruct (watchTimerInv_armed _ (Hstep (CallAddPath path))) as [Ha' _].
    apply Ha'. simpl. intros Hnil. rewrite Hnil in Hin.
    by apply elem_of_nil in Hin.
  - intros path d Hl Hd. split_and!.
    + apply Hs. by rewrite Hl.
    + by rewrite (Hlast path d Hl Hd).
    + by rewrite (Hlast path d Hl Hd).
  - intros path front d back Hl Hf Hd Hne.
    rewrite (removePath_network path c front back d Hl Hf Hd).
    destruct (front ++ back) as [|x rest] eqn:Hrest; [done|]. simpl.
    split_and!; [done | done |]. apply Ha. rewrite Hl.
    by destruct front.
  - intros path Hf. unfold removePath.
    apply (findWatchedFolder_None _ _ _ 0) in Hf. by rewrite Hf.
  - intros path d path' Hl Hd He Hn.
    rewrite (Hlast path d Hl Hd).
    set (c1 := setWatcher _ c).
    assert (Hw : world c1 = world c) by done.
    rewrite (addPath_network path' c1);
      [| by rewrite Hw | by rewrite (isNetworkFileSystem_world path' c c1)].
    by split_and!.
Qed.

(** C10.  A name with [.invalid] appended matches neither [*.torrent] nor
    [*.magnet], with or without regard to case.  So, in every configuration
    the event loop can reach and whatever the world has become, the path of a
    renamed file is not among the paths a scan of any directory visits, is not
    in the tracker, and has never been reported. *)
Theorem invalid_suffix_never_matches (w : World) (events : list Event)
    (name path : string) (caseSensitive : bool) :
  let c := run (initial w) events in
  Wildcard.matches caseSensitive "*.torrent" (name +:+ ".invalid") = false
  /\ Wildcard.matches caseSensitive "*.magnet" (name +:+ ".invalid") = false
  /\ (forall dir,
        path +:+ ".invalid"
        ∉ scanPaths (world c) dir (m_filters (watcher c)))
  /\ m_partialTorrents (watcher c) !! (path +:+ ".invalid") = None
  /\ (path +:+ ".invalid" ∉ reported (effects c)).
Proof.
  intros c.
  assert (Hinv : invariant c).
  { apply reachable_invariant. by exists w, events. }
  destruct Hinv as (Hf & Hm & Hr & _).
  split_and!.
  - apply not_true_is_false. intros [_ H]%matches_torrent_last.
    by apply invalid_not_like_filter in H.
  - apply not_true_is_false. intros [_ H]%matches_magnet_last.
    by apply invalid_not_like_filter in H.
  - intros dir H. rewrite Hf in H. apply scanPaths_like_filter in H.
    by apply invalid_not_like_filter in H.
  - destruct (m_partialTorrents (watcher c) !! (path +:+ ".invalid"))
      as [v|] eqn:E; [|done].
    destruct (Hm _ _ E) as [H _]. by apply invalid_not_like_filter in H.
  - intros H. rewrite Forall_forall in Hr. apply Hr in H.
    by apply invalid_not_like_filter in H.
Qed.

Lemma invariant_reconcile (ws : list World) :
  forall c, invariant c -> invariant (reconcile c ws).
Proof.
  induction ws as [|w ws IH]; intros c Hinv; [done|].
  simpl. apply IH. apply invariant_tick. by apply (invariant_ext c).
Qed.

(** C6.  From any configuration the event loop can reach, and after any
    further reconciliation ticks in whatever worlds, no retry count is above
    the ceiling of 5.  An entry registered with count 0 whose file fails on
    each of k < 5 ticks is still tracked after them, with count k.  On a tick
    where its file still fails, an entry is removed exactly when its count has
    reached the ceiling; below the ceiling the count goes up by one, and no
    count is ever raised past the ceiling. *)
Theorem retry_count_bounded (c : Config) (ws : list World) :
  reachable c ->
  let c' := reconcile c ws in
  (forall q n,
     m_partialTorrents (watcher c') !! q = Some n ->
     0 <= n <= MAX_PARTIAL_RETRIES)
  /\ (forall p,
        m_partialTorrents (watcher c) !! p = Some 0 ->
        Forall (fun w => failing w p) ws ->
        Z.of_nat (length ws) < MAX_PARTIAL_RETRIES ->
        m_partialTorrents (watcher c') !! p = Some (Z.of_nat (length ws)))
  /\ (forall p n w,
        m_partialTorrents (watcher c') !! p = Some n ->
        failing w p ->
        m_partialTorrents (watcher (tick w c')) !! p
        = if n =? MAX_PARTIAL_RETRIES then None else Some (n + 1)).
Proof.
  intros Hreach c'.
  assert (Hinv : invariant c) by (by apply reachable_invariant).
  assert (Hinv' : invariant c') by (by apply invariant_reconcile).
  split_and!.
  - intros q n Hq. destruct Hinv' as (_ & Hm & _). by destruct (Hm q n Hq).
  - intros p Hp Hf Hk.
    destruct (reconcile_failing p ws c 0) as (Hd & _); try done.
    + by apply invariant_trackerSound.
    + lia.
  - intros p n w Hp Hf.
    destruct (tick_failing w c' p n) as (Hd & _); try done.
    + by apply invariant_trackerSound.
    + rewrite Hd. destruct Hinv' as (_ & Hm & _).
      destruct (Hm p n Hp) as [_ Hn].
      destruct (n =? MAX_PARTIAL_RETRIES) eqn:E.
      * apply Z.eqb_eq in E. subst n. done.
      * apply Z.eqb_neq in E.
        assert ((n <? MAX_PARTIAL_RETRIES) = true) as ->
          by (apply Z.ltb_lt; lia).
        done.
Qed.

Lemma retry_count_bounded_witness :
  reachable TickExample.c
  /\ m_partialTorrents
       (watcher (reconcile TickExample.c [TickExample.w; TickExample.w]))
     !! "/d/b.torrent" = Some 2.
Proof.
  assert (Hreach : reachable TickExample.c).
  { exists TickExample.w, [CallAddPath "/d"]. reflexivity. }
  split; [exact Hreach|].
  destruct (retry_count_bounded TickExample.c
              [TickExample.w; TickExample.w] Hreach) as (_ & Hk & _).
  apply (Hk "/d/b.torrent").
  - vm_compute. reflexivity.
  - repeat constructor.
  - vm_compute. reflexivity.
Defined.

(** C5 as stated fails: after five ticks a file that keeps failing is still
    tracked, with retry count 5, and still under its own name. *)
Lemma gives_up_after_five_ticks_counterexample :
  ~ removedAndRenamedAfter 5 TickExample.w TickExample.c "/d/b.torrent".
Proof.
  intros (H & _). vm_compute in H. discriminate H.
Qed.

(** C5, amended.  A file registered with retry count 0 that exists and fails
    validation on every tick is still tracked, with count 5, after five ticks
    and gives way on the sixth: the entry is removed and the file is renamed
    to its name with [.invalid] appended (the rename succeeds when that name
    is free).  Up to then the path is in no ready batch and is not renamed. *)
Theorem gives_up_after_ceiling_plus_one (c : Config) (p : string)
    (ws : list World) (w : World) :
  trackerSound (m_partialTorrents (watcher c)) ->
  m_partialTorrents (watcher c) !! p = Some 0 ->
  Forall (fun w => failing w p) ws ->
  Z.of_nat (length ws) = MAX_PARTIAL_RETRIES ->
  failing w p ->
  let c5 := reconcile c ws in
  let c6 := tick w c5 in
  m_partialTorrents (watcher c5) !! p = Some MAX_PARTIAL_RETRIES
  /\ (forall n ok, Rename p n ok ∉ since c c5)
  /\ m_partialTorrents (watcher c6) !! p = None
  /\ Rename p (p +:+ ".invalid") (negb (fileExists w (p +:+ ".invalid")))
     ∈ since c5 c6
  /\ (fileExists w (p +:+ ".invalid") = false ->
      files (world c6) !! p = None
      /\ files (world c6) !! (p +:+ ".invalid") = Some false)
  /\ (p ∉ reported (since c c6)).
Proof.
  intros Hs Hp Hf Hlen Hw c5 c6.
  destruct (reconcile_failing p ws c 0 Hs Hp Hf) as (Hd & Hrep & Hren);
    [lia|].
  fold c5 in Hd, Hrep, Hren. rewrite Z.add_0_l, Hlen in Hd.
  destruct (tick_failing w c5 p MAX_PARTIAL_RETRIES)
    as (Hd' & Hrep' & Hren' & Hr & _); try done.
  { by apply trackerSound_reconcile. }
  fold c6 in Hd', Hrep', Hren', Hr.
  split_and!; try done.
  - apply Hren'. split_and!; [lia | done | done].
  - intros Hfree. apply Hr; [lia | done].
  - subst c6 c5.
    rewrite since_reconcile_snoc, reported_app, elem_of_app. tauto.
Qed.

Lemma gives_up_after_ceiling_plus_one_witness :
  trackerSound (m_partialTorrents (watcher TickExample.c))
  /\ m_partialTorrents
       (watcher (reconcile TickExample.c (replicate 6 TickExample.w)))
     !! "/d/b.torrent" = None.
Proof.
  assert (Hs : trackerSound (m_partialTorrents (watcher TickExample.c))).
  { apply (bool_decide_unpack _). vm_compute. exact I. }
  split; [exact Hs|].
  assert (Hf : failing TickExample.w "/d/b.torrent")
    by (vm_compute; reflexivity).
  destruct (gives_up_after_ceiling_plus_one TickExample.c "/d/b.torrent"
              (replicate 5 TickExample.w) TickExample.w Hs)
    as (_ & _ & Hgone & _).
  - vm_compute. reflexivity.
  - repeat constructor; exact Hf.
  - reflexivity.
  - exact Hf.
  - exact Hgone.
Defined.

Lemma tick_reportedOnlyUntracked (c : Config) :
  trackerSound (m_partialTorrents (watcher c)) ->
  reportedOnlyUntracked c (processPartialTorrents c).
Proof.
  intros Hs p Hp.
  destruct (tick_effects c) as (rs & _ & _ & _ & _ & Hrep).
  destruct (removeIfLoop_frame
              (map_to_list (m_partialTorrents (watcher c)))
              (m_partialTorrents (watcher c)) [] c)
    as (_ & _ & _ & _ & (new & Hn & Hsub) & _).
  fold (tickLoop c) in Hn. simpl in Hn.
  assert (Hin := Hp). rewrite Hrep, Hn in Hin.
  apply (sublist_subseteq _ _ Hsub) in Hin.
  apply list_elem_of_fmap in Hin as ([p' v] & -> & Hin%elem_of_map_to_list).
  simpl in *.
  destruct (tick_entry c p' v Hs Hin) as (Hd & Hr & _).
  apply Hr in Hp. by rewrite Hp in Hd.
Qed.

(** C4 as stated fails: a scan reports a file that has become valid while
    the tracker still holds it, and the next tick reports it once more. *)
Lemma reported_while_tracked_counterexample :
  let c := run TickExample.c [WorldChanged TickExample.wValid] in
  let c' := step c (DirectoryChanged "/d") in
  ~ reportedOnlyUntracked c c'
  /\ reportCount "/d/b.torrent" (since c (step c' PartialTimeout)) = 2%nat.
Proof.
  split; [|vm_compute; reflexivity].
  intros H. specialize (H "/d/b.torrent").
  assert (Hin : "/d/b.torrent"
                ∈ reported
                    (since (run TickExample.c [WorldChanged TickExample.wValid])
                       (step
                          (run TickExample.c
                             [WorldChanged TickExample.wValid])
                          (DirectoryChanged "/d")))).
  { apply (bool_decide_unpack _). vm_compute. exact I. }
  specialize (H Hin). vm_compute in H. discriminate H.
Qed.

(** C4, amended.  A path in the batch of a reconciliation tick is no longer
    in the tracker when the batch is emitted.  A tracked file registered with
    count 0 that fails on the ticks before tick t and is valid at tick t, for
    t up to the ceiling plus one, is not reported by the earlier ticks, is
    reported exactly once by tick t and leaves the tracker there; whatever
    ticks follow, the reconciliation has reported it exactly once in total,
    and never renamed it. *)
Theorem reconciliation_reports_once (c : Config) (p : string)
    (ws ws' : list World) (w : World) :
  trackerSound (m_partialTorrents (watcher c)) ->
  m_partialTorrents (watcher c) !! p = Some 0 ->
  Forall (fun w => failing w p) ws ->
  Z.of_nat (length ws) <= MAX_PARTIAL_RETRIES ->
  files w !! p = Some true ->
  let c1 := reconcile c ws in
  let c2 := tick w c1 in
  let c3 := reconcile c2 ws' in
  reportedOnlyUntracked c1 c2
  /\ (p ∉ reported (since c c1))
  /\ reportCount p (since c1 c2) = 1%nat
  /\ m_partialTorrents (watcher c2) !! p = None
  /\ reportCount p (since c c3) = 1%nat
  /\ (forall n ok, Rename p n ok ∉ since c c3).
Proof.
  intros Hs Hp Hf Hlen Hw c1 c2 c3.
  destruct (reconcile_failing p ws c 0 Hs Hp Hf) as (Hd & Hrep & Hren);
    [lia|].
  fold c1 in Hd, Hrep, Hren.
  assert (Hs1 : trackerSound (m_partialTorrents (watcher c1)))
    by (by apply trackerSound_reconcile).
  destruct (tick_entry (setWorld w c1) p _ Hs1 Hd)
    as (Hd2 & Hrep2 & Hren2 & _).
  fold (tick w c1) in Hd2, Hrep2, Hren2. fold c2 in Hd2, Hrep2, Hren2.
  assert (Ho : outcome (world (setWorld w c1)) p (0 + Z.of_nat (length ws))
               = BecameValid).
  { unfold outcome, fileExists, isValidTorrent. simpl. rewrite Hw.
    rewrite !bool_decide_eq_true_2 by eauto. done. }
  rewrite Ho in Hd2, Hrep2, Hren2.
  change (since (setWorld w c1) c2) with (since c1 c2) in Hrep2, Hren2.
  destruct (reconcile_untracked p ws' c2 Hd2) as (Hd3 & Hrep3 & Hren3).
  fold c3 in Hd3, Hrep3, Hren3.
  assert (H12 : since c c2 = since c c1 ++ since c1 c2).
  { subst c2 c1. apply since_reconcile_snoc. }
  assert (H13 : since c c3 = since c c2 ++ since c2 c3).
  { subst c3 c2 c1.
    destruct (reconcile_extends ws c) as [es He].
    destruct (tick_extends w (reconcile c ws)) as [es' He'].
    destruct (reconcile_extends ws' (tick w (reconcile c ws))) as [es'' He''].
    apply (since_trans _ _ _ (es ++ es') es''); [|done].
    by rewrite He', He, app_assoc. }
  assert (Hone : reportCount p (since c1 c2) = 1%nat).
  { apply reportCount_1; [by apply Hrep2|].
    destruct (tick_effects (setWorld w c1)) as (_ & _ & _ & _ & Hnd & Hr).
    fold (tick w c1) in Hr. fold c2 in Hr.
    change (since (setWorld w c1) c2) with (since c1 c2) in Hr.
    by rewrite Hr. }
  split_and!.
  - apply (tick_reportedOnlyUntracked (setWorld w c1) Hs1).
  - done.
  - done.
  - done.
  - rewrite H13, H12, !reportCount_app, Hone.
    by rewrite !reportCount_0.
  - intros n ok. rewrite H13, H12, !elem_of_app. intros [[H|H]|H].
    + by apply (Hren n ok).
    + apply Hren2 in H. by destruct H.
    + by apply (Hren3 n ok).
Qed.

Lemma reconciliation_reports_once_witness :
  trackerSound (m_partialTorrents (watcher TickExample.c))
  /\ reportCount "/d/b.torrent"
       (since TickExample.c
          (reconcile
             (tick TickExample.wValid
                (reconcile TickExample.c [TickExample.w; TickExample.w]))
             [TickExample.wValid]))
     = 1%nat.
Proof.
  assert (Hs : trackerSound (m_partialTorrents (watcher TickExample.c))).
  { apply (bool_decide_unpack _). vm_compute. exact I. }
  split; [exact Hs|].
  assert (Hf : failing TickExample.w "/d/b.torrent")
    by (vm_compute; reflexivity).
  destruct (reconciliation_reports_once TickExample.c "/d/b.torrent"
              [TickExample.w; TickExample.w] [TickExample.wValid]
              TickExample.wValid Hs)
    as (_ & _ & _ & _ & Honce & _).
  - vm_compute. reflexivity.
  - repeat constructor; exact Hf.
  - vm_compute. discriminate.
  - vm_compute. reflexivity.
  - exact Honce.
Defined.

(** ** Network folders added twice *)




(** ** The reconciliation timer *)

(** X17.  A scan that finds the handle of the reconciliation timer null and
    leaves the tracker non-empty creates the timer and leaves it running. *)
Lemma scan_creates_timer (path : string) (c : Config) :
  m_partialTorrentTimer (watcher c) = None ->
  m_partialTorrents (watcher (scanLocalFolder path c)) <> ∅ ->
  armed (m_partialTorrentTimer (watcher (scanLocalFolder path c))) = true.
Proof.
  rewrite scanLocalFolder_eq. simpl. intros -> Hne.
  unfold timerAfterScan. by rewrite bool_decide_eq_true_2.
Qed.

(** X18.  After [processPartialTorrents], if the handle of the
    reconciliation timer was set, the timer is running exactly when the tracker
    is not empty: it is restarted while entries remain and stopped when the
    last one is gone. *)
Lemma tick_timer (c : Config) :
  is_Some (m_partialTorrentTimer (watcher c)) ->
  armed (m_partialTorrentTimer (watcher (processPartialTorrents c))) = true
  <-> m_partialTorrents (watcher (processPartialTorrents c)) <> ∅.
Proof.
  intros [t Ht]. rewrite processPartialTorrents_eq. simpl.
  unfold timerAfterTick. rewrite Ht. case_bool_decide; simpl.
  - by split.
  - by split.
Qed.

(** A scan that finds a handle, live or awaiting its deferred deletion,
    leaves the timer as it is. *)
Lemma scan_keeps_handle (path : string) (c : Config) (t : QTimer) :
  m_partialTorrentTimer (watcher c) = Some t ->
  m_partialTorrentTimer (watcher (scanLocalFolder path c)) = Some t.
Proof.
  rewrite scanLocalFolder_eq. simpl. intros ->.
  unfold timerAfterScan. by case_bool_decide.
Qed.

Lemma registerPartial_nonempty (w : World) (l : list string)
    (m : gmap string Z) :
  m <> ∅ -> registerPartial w l m <> ∅.
Proof.
  intros Hne Hempty. apply Hne. apply map_eq. intros p.
  rewrite lookup_empty. destruct (m !! p) as [v|] eqn:E; [|done].
  assert (H : registerPartial w l m !! p = Some v)
    by (by rewrite registerPartial_lookup, E).
  by rewrite Hempty, lookup_empty in H.
Qed.

Lemma partialTimerInv_scan (w : World) (f : FileSystemWatcher) (dir : string) :
  partialTimerInv f -> partialTimerInv (scanWatcher w f dir).
Proof.
  unfold partialTimerInv, scanWatcher, timerAfterScan. simpl.
  destruct (m_partialTorrentTimer f) as [t|].
  - intros (Hne & ? & ? & ?).
    pose proof (registerPartial_nonempty w
                  (scanPaths w dir (m_filters f)) _ Hne).
    by rewrite bool_decide_eq_true_2.
  - intros _. case_bool_decide as Hd; [done|].
    destruct (decide (registerPartial w (scanPaths w dir (m_filters f))
                        (m_partialTorrents f) = ∅)) as [He|He]; [done|].
    by destruct Hd.
Qed.

Lemma partialTimerInv_scans (w : World) (dirs : list string) :
  forall f, partialTimerInv f -> partialTimerInv (foldl (scanWatcher w) f dirs).
Proof.
  induction dirs as [|d dirs IH]; intros f Hf; [done|].
  simpl. by apply IH, partialTimerInv_scan.
Qed.

Lemma partialTimerInv_ext (f f' : FileSystemWatcher) :
  m_partialTorrents f' = m_partialTorrents f ->
  m_partialTorrentTimer f' = m_partialTorrentTimer f ->
  partialTimerInv f -> partialTimerInv f'.
Proof. unfold partialTimerInv. by intros -> ->. Qed.

Lemma partialTimerInv_addPath (path : string) (c : Config) :
  partialTimerInv (watcher c) -> partialTimerInv (watcher (addPath path c)).
Proof.
  intros Hinv. unfold addPath.
  destruct (dirExists (world c) path); simpl; [|done].
  destruct (isNetworkFileSystem_frame path c) as (Hw & _).
  destruct (isNetworkFileSystem path c) as [network c1]. simpl in *.
  rewrite <- Hw in Hinv. destruct network.
  - simpl. by destruct (m_watchTimer (watcher c1)).
  - rewrite scanLocalFolder_eq. simpl. apply partialTimerInv_scan.
    unfold QFileSystemWatcher_addPath.
    by destruct (String.eqb path "" || _).
Qed.

Lemma partialTimerInv_removePath (path : string) (c : Config) :
  partialTimerInv (watcher c) -> partialTimerInv (watcher (removePath path c)).
Proof.
  intros Hinv. unfold removePath.
  destruct (findWatchedFolder _ _ _ _) as [i|]; [|done].
  by destruct (delete i (m_watchedFolders (watcher c))).
Qed.

(** The reconciliation timeout with the deferred deletion right behind it. *)
Lemma partialTimerInv_tick (c : Config) :
  partialTimerInv (watcher c) ->
  partialTimerInv (watcher (step (step c PartialTimeout) DeferredDelete)).
Proof.
  intros Hinv. assert (Hinv' := Hinv). unfold partialTimerInv in Hinv'.
  destruct (m_partialTorrentTimer (watcher c)) as [t|] eqn:Ht.
  - destruct Hinv' as (Hne & Ha & Hp & Hs).
    assert (Hstep :
      step c PartialTimeout
      = processPartialTorrents
          (setWatcher
             (setPartialTorrentTimer (Some (Timer.expire t)) (watcher c)) c)).
    { simpl. by rewrite Ht, Ha. }
    rewrite Hstep, processPartialTorrents_eq.
    cbn [step watcher m_partialTorrentTimer setPartialTorrentTimer
         setPartialTorrents setWatcher].
    unfold timerAfterTick, Timer.expire. rewrite Hs.
    case_bool_decide as Hd; simpl.
    + unfold partialTimerInv. simpl. exact Hd.
    + rewrite Hp. unfold partialTimerInv. simpl. by rewrite Hp.
  - assert (Hstep : step c PartialTimeout = c) by (simpl; by rewrite Ht).
    rewrite Hstep. simpl. by rewrite Ht.
Qed.

Lemma partialTimerInv_step (c : Config) (e : Event) :
  e <> PartialTimeout ->
  partialTimerInv (watcher c) -> partialTimerInv (watcher (step c e)).
Proof.
  intros He Hinv. destruct e as [path|path|path| | | |w]; simpl; try done.
  - by apply partialTimerInv_addPath.
  - by apply partialTimerInv_removePath.
  - case_bool_decide; [|done]. rewrite scanLocalFolder_eq. simpl.
    by apply partialTimerInv_scan.
  - destruct (m_watchTimer (watcher c)) as [t|]; [|done].
    destruct (isActive t); [|done].
    rewrite scanNetworkFolders_eq. simpl. by apply partialTimerInv_scans.
  - assert (Hinv' := Hinv). unfold partialTimerInv in Hinv'.
    destruct (m_partialTorrentTimer (watcher c)) as [t|] eqn:Ht; [|done].
    destruct Hinv' as (? & ? & Hp & ?). by rewrite Hp.
Qed.

Lemma run_cons (c : Config) (e : Event) (events : list Event) :
  run c (e :: events) = run (step c e) events.
Proof. reflexivity. Qed.

Lemma partialTimerInv_run (events : list Event) :
  forall c,
    partialTimerInv (watcher c) ->
    partialTimerInv (watcher (run c (promptDeletion events))).
Proof.
  induction events as [|e events IH]; intros c Hinv; [done|].
  unfold promptDeletion. cbn [flat_map]. fold (promptDeletion events).
  destruct e as [path|path|path| | | |w]; cbn [app]; rewrite !run_cons;
    apply IH;
    solve [by apply partialTimerInv_step | by apply partialTimerInv_tick].
Qed.

(** X19.  As long as the event loop handles every deferred deletion right
    after the reconciliation timeout, before the next event, the
    reconciliation timer exists and runs exactly when the tracker is not
    empty, whatever the events are. *)
Lemma partial_timer_iff_when_deletion_prompt (w : World)
    (events : list Event) :
  let c := run (initial w) (promptDeletion events) in
  armed (m_partialTorrentTimer (watcher c)) = true
  <-> m_partialTorrents (watcher c) <> ∅.
Proof.
  intros c.
  assert (Hinv : partialTimerInv (watcher c)).
  { by apply partialTimerInv_run. }
  unfold partialTimerInv in Hinv. unfold armed.
  destruct (m_partialTorrentTimer (watcher c)) as [t|].
  - destruct Hinv as (? & ? & _). by split.
  - rewrite Hinv. by split.
Qed.

(** C2, on the code.  The reconciliation timer fires and empties the
    tracker, which stops the timer and schedules its deletion; the network
    poll timer fires next, before the event loop handles that deletion, and
    its scan registers a new partial file.  [startPartialTorrentTimer] finds
    the handle still set and creates nothing: the tracker is not empty and no
    reconciliation timer runs.  Once the deletion is handled there is no timer
    at all, and the tracked file waits until some later scan. *)
Theorem partial_timer_not_rearmed :
  let c := run (initial NetworkExample.w1) NetworkExample.events in
  let c' := step c DeferredDelete in
  m_partialTorrents (watcher c) !! "/mnt/nas/b.torrent" = Some 0
  /\ armed (m_partialTorrentTimer (watcher c)) = false
  /\ m_partialTorrents (watcher c') !! "/mnt/nas/b.torrent" = Some 0
  /\ m_partialTorrentTimer (watcher c') = None
  /\ step c' PartialTimeout = c'.
Proof. vm_compute. by split_and!. Qed.


(** * Further properties of the code *)

(** ** One report per event *)

Lemma since_same (c c' : Config) : effects c' = effects c -> since c c' = [].
Proof. intros H. apply since_app. by rewrite H, app_nil_r. Qed.

Lemma batches_app (es es' : list Effect) :
  batches (es ++ es') = batches es ++ batches es'.
Proof. induction es as [|[] es IH]; simpl; try done. by rewrite IH. Qed.

Lemma batches_report (batch : list string) :
  batches (report batch) = inOneBatch batch.
Proof. by destruct batch. Qed.

Lemma batches_renames (keys : list string) (rs : list Effect) :
  Forall (isRenameOf keys) rs -> batches rs = [].
Proof.
  induction 1 as [|e rs (p & ok & -> & _) _ IH]; [done|]. by simpl.
Qed.

Lemma batches_statfsDiagnostics (path : string) (r : StatfsResult) :
  batches (statfsDiagnostics path r) = [].
Proof. by destruct r. Qed.

(** What a handler has added is some effects without a batch, then the
    report of one list of paths. *)
Lemma one_report_shape (pre : list Effect) (batch : list string) :
  batches pre = [] -> reported pre = [] ->
  batches (pre ++ report batch)
  = inOneBatch (reported (pre ++ report batch)).
Proof.
  intros Hb Hr.
  by rewrite batches_app, reported_app, Hb, Hr, batches_report,
    reported_report.
Qed.

Lemma addPath_effects (path : string) (c : Config) :
  since c (addPath path c) = []
  \/ since c (addPath path c)
     = statfsDiagnostics path (statfs (world c) (statfsArgument path))
       ++ report (readyPaths (world c) (m_filters (watcher c)) path).
Proof.
  unfold addPath. destruct (dirExists (world c) path); simpl;
    [|left; by apply since_same].
  destruct (isNetworkFileSystem_frame path c) as (Hw & Hwo & He).
  pose proof (isNetworkFileSystem_true path c) as Htrue.
  destruct (isNetworkFileSystem path c) as [network c1]. simpl in *.
  destruct network.
  - left. apply since_same. simpl. by rewrite (Htrue eq_refl).
  - right. apply since_app. rewrite scanLocalFolder_eq. simpl.
    assert (effects (QFileSystemWatcher_addPath path c1) = effects c1) as ->.
    { unfold QFileSystemWatcher_addPath.
      by destruct (String.eqb path "" || _). }
    assert (world (QFileSystemWatcher_addPath path c1) = world c1) as ->.
    { unfold QFileSystemWatcher_addPath.
      by destruct (String.eqb path "" || _). }
    assert (m_filters (watcher (QFileSystemWatcher_addPath path c1))
            = m_filters (watcher c1)) as ->.
    { unfold QFileSystemWatcher_addPath.
      by destruct (String.eqb path "" || _). }
    by rewrite He, Hw, Hwo, <- app_assoc.
Qed.

Lemma removePath_effects (path : string) (c : Config) :
  effects (removePath path c) = effects c.
Proof.
  unfold removePath. destruct (findWatchedFolder _ _ _ _) as [i|]; [|done].
  by destruct (delete i (m_watchedFolders (watcher c))).
Qed.

(** What [addPath] adds to the effects, case by case. *)
Lemma addPath_since (path : string) (c : Config) :
  since c (addPath path c)
  = if dirExists (world c) path && negb (fst (isNetworkFileSystem path c))
    then statfsDiagnostics path (statfs (world c) (statfsArgument path))
         ++ report (readyPaths (world c) (m_filters (watcher c)) path)
    else [].
Proof.
  unfold addPath. destruct (dirExists (world c) path); simpl;
    [|by apply since_same].
  destruct (isNetworkFileSystem_frame path c) as (Hw & Hwo & He).
  pose proof (isNetworkFileSystem_true path c) as Htrue.
  destruct (isNetworkFileSystem path c) as [network c1]. simpl in *.
  destruct network; simpl.
  - apply since_same. simpl. by rewrite (Htrue eq_refl).
  - apply since_app. rewrite scanLocalFolder_eq. simpl.
    assert (effects (QFileSystemWatcher_addPath path c1) = effects c1) as ->.
    { unfold QFileSystemWatcher_addPath.
      by destruct (String.eqb path "" || _). }
    assert (world (QFileSystemWatcher_addPath path c1) = world c1) as ->.
    { unfold QFileSystemWatcher_addPath.
      by destruct (String.eqb path "" || _). }
    assert (m_filters (watcher (QFileSystemWatcher_addPath path c1))
            = m_filters (watcher c1)) as ->.
    { unfold QFileSystemWatcher_addPath.
      by destruct (String.eqb path "" || _). }
    by rewrite He, Hw, Hwo, <- app_assoc.
Qed.

(** The paths a tick reports are the tracked paths whose file exists and is
    accepted by the parser. *)
Lemma tick_reported_iff (c : Config) (p : string) :
  trackerSound (m_partialTorrents (watcher c)) ->
  p ∈ reported (since c (processPartialTorrents c)) <->
  exists v, m_partialTorrents (watcher c) !! p = Some v
    /\ fileExists (world c) p = true
    /\ isValidTorrent (world c) p = true.
Proof.
  intros Hs. split.
  - intros Hp.
    destruct (tick_effects c) as (rs & _ & _ & _ & _ & Hrep).
    destruct (removeIfLoop_frame
                (map_to_list (m_partialTorrents (watcher c)))
                (m_partialTorrents (watcher c)) [] c)
      as (_ & _ & _ & _ & (new & Hn & Hsub) & _).
    fold (tickLoop c) in Hn. simpl in Hn.
    assert (Hin := Hp). rewrite Hrep, Hn in Hin.
    apply (sublist_subseteq _ _ Hsub) in Hin.
    apply list_elem_of_fmap in Hin as ([k v] & -> & Hin%elem_of_map_to_list).
    simpl in *.
    destruct (tick_entry c k v Hs Hin) as (_ & Hr & _).
    apply Hr in Hp. exists v. split; [done|].
    unfold outcome in Hp.
    destruct (fileExists (world c) k); simpl in Hp; [|done].
    destruct (isValidTorrent (world c) k); [done|].
    by destruct (MAX_PARTIAL_RETRIES <=? v).
  - intros (v & Hq & He & Hv).
    destruct (tick_entry c p v Hs Hq) as (_ & Hr & _).
    apply Hr. unfold outcome. by rewrite He, Hv.
Qed.

(** X1.  Whatever the event, the handler emits all the paths it has found
    ready in one report, and emits no report when it has found none: there is
    never a second report for one event and never an empty one.  What it has
    found ready is, for a directory change, a poll and an [addPath], the
    paths the scan of the directories in question finds ready, in the order
    of the scan; for a reconciliation tick, every tracked path whose file
    exists and is accepted by the parser, each once; and nothing for any
    other event. *)
Theorem one_report_per_event (c : Config) (e : Event) :
  batches (since c (step c e))
  = inOneBatch (reported (since c (step c e)))
  /\ (e <> PartialTimeout ->
      reported (since c (step c e)) = foundByScan c e)
  /\ (e = PartialTimeout ->
      trackerSound (m_partialTorrents (watcher c)) ->
      NoDup (reported (since c (step c e)))
      /\ forall p, p ∈ reported (since c (step c e)) <-> foundByTick c p).
Proof.
  split_and!.
  - destruct e as [path|path|path| | | |w]; simpl.
    + destruct (addPath_effects path c) as [-> | ->]; [done|].
      apply one_report_shape;
        [apply batches_statfsDiagnostics | apply reported_statfsDiagnostics].
    + by rewrite since_same by apply removePath_effects.
    + case_bool_decide; [|by rewrite since_same].
      rewrite scanLocalFolder_eq. erewrite since_app by (simpl; reflexivity).
      by apply (one_report_shape []).
    + destruct (m_watchTimer (watcher c)) as [t|]; [|by rewrite since_same].
      destruct (isActive t); [|by rewrite since_same].
      rewrite scanNetworkFolders_eq.
      erewrite since_app by (simpl; reflexivity).
      by apply (one_report_shape []).
    + destruct (m_partialTorrentTimer (watcher c)) as [t|];
        [|by rewrite since_same].
      destruct (isActive t); [|by rewrite since_same].
      set (c0 := setWatcher _ c).
      destruct (tick_effects c0) as (rs & He & _ & Hrs & _).
      change (since c (processPartialTorrents c0))
        with (since c0 (processPartialTorrents c0)).
      rewrite (since_app _ _ _ He).
      apply one_report_shape;
        [by eapply batches_renames | by eapply reported_renames].
    + destruct (m_partialTorrentTimer (watcher c)) as [t|];
        [|by rewrite since_same].
      destruct (deletePending t); by rewrite since_same.
    + by rewrite since_same.
  - intros Hne. destruct e as [path|path|path| | | |w]; simpl; [| | | |done| |].
    + rewrite addPath_since.
      destruct (dirExists (world c) path
                && negb (fst (isNetworkFileSystem path c))); [|done].
      by rewrite reported_app, reported_statfsDiagnostics, reported_report.
    + by rewrite since_same by apply removePath_effects.
    + case_bool_decide; [|by rewrite since_same].
      rewrite scanLocalFolder_eq. erewrite since_app by (simpl; reflexivity).
      by rewrite reported_report.
    + unfold armed.
      destruct (m_watchTimer (watcher c)) as [t|]; [|by rewrite since_same].
      destruct (isActive t); [|by rewrite since_same].
      rewrite scanNetworkFolders_eq.
      erewrite since_app by (simpl; reflexivity).
      by rewrite reported_report.
    + destruct (m_partialTorrentTimer (watcher c)) as [t|];
        [|by rewrite since_same].
      destruct (deletePending t); by rewrite since_same.
    + by rewrite since_same.
  - intros -> Hs. unfold foundByTick, armed. simpl.
    destruct (m_partialTorrentTimer (watcher c)) as [t|].
    2: { rewrite since_same by done. split; [constructor|].
         intros p. rewrite elem_of_nil. naive_solver. }
    destruct (isActive t).
    2: { rewrite since_same by done. split; [constructor|].
         intros p. rewrite elem_of_nil. naive_solver. }
    set (c0 := setWatcher _ c).
    change (since c (processPartialTorrents c0))
      with (since c0 (processPartialTorrents c0)).
    split.
    + destruct (tick_effects c0) as (rs & _ & _ & _ & Hnd & Hrep).
      by rewrite Hrep.
    + intros p. rewrite (tick_reported_iff c0 p Hs). naive_solver.
Qed.

(** ** The list of watched directories *)

(** X2.  In every configuration the event loop can reach, [directories()]
    returns the canonical path of every network folder followed by every
    directory of the base class: the test of the timer handle never hides a
    network folder. *)
Theorem directories_lists_every_folder (w : World) (events : list Event) :
  let c := run (initial w) events in
  directories c
  = map (canonicalPath (world c)) (m_watchedFolders (watcher c))
    ++ baseDirectories (watcher c).
Proof.
  intros c.
  assert (Hinv : watchTimerInv (watcher c)).
  { apply reachable_invariant. by exists w, events. }
  unfold directories, watchTimerInv in *.
  destruct (m_watchTimer (watcher c)); [done|]. by rewrite Hinv.
Qed.

(** ** Removing network folders *)

(** X3.  [removePath] takes one entry out of the list of network folders,
    the first that equals the path, and returns: the list gets shorter by
    exactly one, the folders before and after the entry stay in their order,
    and the subscriptions of the base class, the tracker and the effects are
    not touched. *)
Theorem removePath_removes_first_match (path : string) (c : Config) (i : nat) :
  findWatchedFolder (world c) path (m_watchedFolders (watcher c)) 0 = Some i ->
  let c' := removePath path c in
  exists front d back,
    m_watchedFolders (watcher c) = front ++ d :: back
    /\ length front = i
    /\ QDir.eqb (world c) d path = true
    /\ Forall (fun x => QDir.eqb (world c) x path = false) front
    /\ m_watchedFolders (watcher c') = front ++ back
    /\ baseDirectories (watcher c') = baseDirectories (watcher c)
    /\ m_partialTorrents (watcher c') = m_partialTorrents (watcher c)
    /\ effects c' = effects c.
Proof.
  intros Hfind c'.
  destruct (findWatchedFolder_Some _ _ _ _ _ Hfind)
    as (front & d & back & Hl & -> & Hd & Hf).
  exists front, d, back. subst c'.
  rewrite (removePath_network path c front back d Hl Hf Hd).
  split_and!; try done; by destruct (front ++ back).
Qed.

Lemma removePath_removes_first_match_witness :
  findWatchedFolder NetworkExample.w "/mnt/nas" ["/mnt/nas"; "/mnt/nas"] 0
  = Some 0%nat
  /\ exists front d back,
       ["/mnt/nas"; "/mnt/nas"] = front ++ d :: back
       /\ m_watchedFolders
            (watcher
               (removePath "/mnt/nas"
                  (addPath "/mnt/nas"
                     (addPath "/mnt/nas" (initial NetworkExample.w)))))
          = front ++ back.
Proof.
  split; [reflexivity|].
  destruct (removePath_removes_first_match "/mnt/nas"
              (addPath "/mnt/nas"
                 (addPath "/mnt/nas" (initial NetworkExample.w))) 0)
    as (front & d & back & Hl & _ & _ & _ & Hafter & _).
  - vm_compute. reflexivity.
  - exists front, d, back. split; [|exact Hafter].
    rewrite <- Hl. vm_compute. reflexivity.
Defined.

Lemma occurrences_app (d : string) (l k : list string) :
  occurrences d (l ++ k) = (occurrences d l + occurrences d k)%nat.
Proof. unfold occurrences. by rewrite filter_app, length_app. Qed.

Lemma occurrences_pos (d : string) (l : list string) :
  (0 < occurrences d l)%nat -> d ∈ l.
Proof.
  unfold occurrences. induction l as [|x l IH]; simpl; [lia|].
  destruct (decide (x = d)) as [->|Hne].
  - intros _. apply list_elem_of_here.
  - rewrite filter_cons_False by done. intros H.
    by apply list_elem_of_further, IH.
Qed.

(** X4.  [addPath] called twice and [removePath] called once on a network
    folder leave the folder in the list of network folders, with the poll
    timer running: one [removePath] does not undo two [addPath]. *)
Theorem add_twice_remove_once_still_watched (c : Config) (path : string) :
  reachable c ->
  dirExists (world c) path = true ->
  fst (isNetworkFileSystem path c) = true ->
  let c3 := removePath path (addPath path (addPath path c)) in
  path ∈ m_watchedFolders (watcher c3)
  /\ armed (m_watchTimer (watcher c3)) = true.
Proof.
  intros Hreach He Hn c3.
  set (c1 := addPath path c). set (c2 := addPath path c1).
  assert (Hc1 : c1 = addPath path c) by done.
  rewrite (addPath_network path c He Hn) in Hc1.
  assert (Hw1 : world c1 = world c) by (by rewrite Hc1).
  assert (Hc2 : c2 = addPath path c1) by done.
  rewrite (addPath_network path c1) in Hc2;
    [|by rewrite Hw1 | by rewrite (isNetworkFileSystem_world path c c1)].
  assert (Hf2 : m_watchedFolders (watcher c2)
                = m_watchedFolders (watcher c) ++ [path; path]).
  { rewrite Hc2, Hc1. simpl. by rewrite <- app_assoc. }
  assert (Hin : path ∈ m_watchedFolders (watcher c3)).
  { subst c3. fold c1. fold c2.
    destruct (findWatchedFolder (world c2) path
                (m_watchedFolders (watcher c2)) 0) as [i|] eqn:Hfind.
    - destruct (findWatchedFolder_Some _ _ _ _ _ Hfind)
        as (front & d & back & Hl & _ & Hd & Hfront).
      assert (Hafter : m_watchedFolders (watcher (removePath path c2))
                       = front ++ back).
      { rewrite (removePath_network path c2 front back d Hl Hfront Hd).
        simpl. by destruct (front ++ back). }
      rewrite Hafter. apply occurrences_pos.
      assert (Hocc : (2 <= occurrences path (front ++ d :: back))%nat).
      { rewrite <- Hl, Hf2, occurrences_app. unfold occurrences at 2.
        rewrite !filter_cons_True by done. simpl. lia. }
      rewrite occurrences_app in Hocc |- *.
      change (d :: back) with ([d] ++ back) in Hocc.
      rewrite occurrences_app in Hocc.
      assert (occurrences path [d] <= 1)%nat; [|lia].
      unfold occurrences. destruct (decide (d = path)) as [->|Hne].
      + by rewrite filter_cons_True.
      + rewrite filter_cons_False by done. simpl. lia.
    - apply findWatchedFolder_None in Hfind. rewrite Hf2 in Hfind.
      apply Forall_app in Hfind as [_ [Hp _]%Forall_cons].
      by rewrite QDir_eqb_refl in Hp. }
  split; [done|].
  assert (Hinv : watchTimerInv (watcher c3)).
  { apply reachable_invariant.
    apply (reachable_step _ (CallRemovePath path)).
    apply (reachable_step _ (CallAddPath path)).
    by apply (reachable_step _ (CallAddPath path)). }
  apply (watchTimerInv_armed _ Hinv). intros Hnil. rewrite Hnil in Hin.
  by apply elem_of_nil in Hin.
Qed.

Lemma add_twice_remove_once_still_watched_witness :
  reachable (initial NetworkExample.w)
  /\ "/mnt/nas"
     ∈ m_watchedFolders
         (watcher
            (removePath "/mnt/nas"
               (addPath "/mnt/nas"
                  (addPath "/mnt/nas" (initial NetworkExample.w))))).
Proof.
  assert (Hreach : reachable (initial NetworkExample.w)).
  { exists NetworkExample.w, []. reflexivity. }
  split; [exact Hreach|].
  destruct (add_twice_remove_once_still_watched (initial NetworkExample.w)
              "/mnt/nas" Hreach) as [Hin _].
  - reflexivity.
  - vm_compute. reflexivity.
  - exact Hin.
Defined.

(** X5.  On a network folder that no folder of the list equals yet,
    [addPath] followed by [removePath] gives back the configuration as it was:
    the folder is appended and taken out again, and a poll timer that
    [addPath] had to create is deleted again. *)
Theorem add_then_remove_restores (c : Config) (path : string) :
  reachable c ->
  dirExists (world c) path = true ->
  fst (isNetworkFileSystem path c) = true ->
  Forall (fun d => QDir.eqb (world c) d path = false)
    (m_watchedFolders (watcher c)) ->
  removePath path (addPath path c) = c.
Proof.
  intros Hreach He Hn Hfresh.
  assert (Hinv : watchTimerInv (watcher c)) by (by apply reachable_invariant).
  rewrite (addPath_network path c He Hn).
  rewrite (removePath_network path _ (m_watchedFolders (watcher c)) [] path);
    [| done | done | apply QDir_eqb_refl].
  rewrite app_nil_r. simpl. unfold watchTimerInv in Hinv.
  destruct c as [[fi pt ti wf wt bd] wo ef]. simpl in *.
  destruct wt as [t|].
  - destruct Hinv as (Hne & _). by destruct wf.
  - by subst wf.
Qed.

Lemma add_then_remove_restores_witness :
  reachable (initial NetworkExample.w)
  /\ removePath "/mnt/nas" (addPath "/mnt/nas" (initial NetworkExample.w))
     = initial NetworkExample.w.
Proof.
  assert (Hreach : reachable (initial NetworkExample.w)).
  { exists NetworkExample.w, []. reflexivity. }
  split; [exact Hreach|].
  apply (add_then_remove_restores (initial NetworkExample.w) "/mnt/nas" Hreach).
  - reflexivity.
  - vm_compute. reflexivity.
  - simpl. constructor.
Defined.

(** ** Scanning again *)

Lemma registerPartial_idem (w : World) (l : list string) (m : gmap string Z) :
  registerPartial w l (registerPartial w l m) = registerPartial w l m.
Proof.
  apply map_eq. intros p. rewrite !registerPartial_lookup.
  destruct (m !! p); [done|].
  by destruct (bool_decide (p ∈ l) && negb (readyFile w p)).
Qed.

Lemma timerAfterScan_idem (m : gmap string Z) (h : TimerHandle) :
  timerAfterScan m (timerAfterScan m h) = timerAfterScan m h.
Proof. unfold timerAfterScan. case_bool_decide; [|done]. by destruct h. Qed.

Lemma scanWatcher_idem (w : World) (f : FileSystemWatcher) (dir : string) :
  scanWatcher w (scanWatcher w f dir) dir = scanWatcher w f dir.
Proof.
  unfold scanWatcher. simpl.
  by rewrite registerPartial_idem, timerAfterScan_idem.
Qed.

(** X6.  A second scan of a directory in an unchanged world leaves the
    watcher as the first scan left it, registers nothing and resets no retry
    count, and reports the same ready files once more: the scan keeps no
    record of what it has reported. *)
Theorem scan_twice (path : string) (c : Config) :
  let c1 := scanLocalFolder path c in
  let c2 := scanLocalFolder path c1 in
  watcher c2 = watcher c1
  /\ world c2 = world c
  /\ since c1 c2 = since c c1
  /\ reported (since c c1)
     = readyPaths (world c) (m_filters (watcher c)) path.
Proof.
  intros c1 c2.
  assert (H1 : effects c1
               = effects c
                 ++ report (readyPaths (world c) (m_filters (watcher c)) path))
    by (subst c1; by rewrite scanLocalFolder_eq).
  assert (Hw1 : world c1 = world c)
    by (subst c1; by rewrite scanLocalFolder_eq).
  assert (Hf1 : watcher c1 = scanWatcher (world c) (watcher c) path)
    by (subst c1; by rewrite scanLocalFolder_eq).
  assert (H2 : effects c2
               = effects c1
                 ++ report (readyPaths (world c) (m_filters (watcher c)) path)).
  { subst c2. rewrite scanLocalFolder_eq. simpl. by rewrite Hw1, Hf1. }
  split_and!.
  - subst c2. rewrite scanLocalFolder_eq. simpl.
    by rewrite Hw1, Hf1, scanWatcher_idem.
  - subst c2. rewrite scanLocalFolder_eq. simpl. exact Hw1.
  - by rewrite (since_app _ _ _ H1), (since_app _ _ _ H2).
  - by rewrite (since_app _ _ _ H1), reported_report.
Qed.

(** X7.  A scan that finds every listed file ready, be it a magnet link or a
    torrent file the parser accepts, reports all of them and leaves the
    tracker as it was: nothing is registered as partial, and with an empty
    tracker no reconciliation timer is created. *)
Theorem scan_all_ready (path : string) (c : Config) :
  Forall (fun p => readyFile (world c) p = true)
    (scanPaths (world c) path (m_filters (watcher c))) ->
  let c' := scanLocalFolder path c in
  reported (since c c') = scanPaths (world c) path (m_filters (watcher c))
  /\ m_partialTorrents (watcher c') = m_partialTorrents (watcher c)
  /\ (m_partialTorrents (watcher c) = ∅ ->
      m_partialTorrentTimer (watcher c') = m_partialTorrentTimer (watcher c)).
Proof.
  intros Hall c'. subst c'. rewrite scanLocalFolder_eq. simpl.
  assert (Hm : registerPartial (world c)
                 (scanPaths (world c) path (m_filters (watcher c)))
                 (m_partialTorrents (watcher c))
               = m_partialTorrents (watcher c)).
  { apply map_eq. intros p. rewrite registerPartial_lookup.
    destruct (m_partialTorrents (watcher c) !! p); [done|].
    case_bool_decide as Hin; [|done]. rewrite Forall_forall in Hall.
    by rewrite (Hall p Hin). }
  rewrite Hm. split_and!; [|done|].
  - erewrite since_app by (simpl; reflexivity).
    rewrite reported_report. unfold readyPaths. clear Hm.
    induction Hall as [|p l Hp Hl IH]; [done|].
    by rewrite filter_cons_True, IH.
  - intros ->. unfold timerAfterScan. by rewrite bool_decide_eq_false_2 by auto.
Qed.

Lemma scan_all_ready_witness :
  Forall (fun p => readyFile NetworkExample.w p = true)
    (scanPaths NetworkExample.w "/mnt/nas" ["*.torrent"; "*.magnet"])
  /\ m_partialTorrents
       (watcher (scanLocalFolder "/mnt/nas" (initial NetworkExample.w)))
     = ∅.
Proof.
  assert (H : Forall (fun p => readyFile NetworkExample.w p = true)
                (scanPaths NetworkExample.w "/mnt/nas"
                   ["*.torrent"; "*.magnet"])).
  { vm_compute. repeat constructor. }
  split; [exact H|].
  destruct (scan_all_ready "/mnt/nas" (initial NetworkExample.w) H)
    as (_ & Hm & _).
  exact Hm.
Defined.

(** ** The tracker drains *)

Lemma reconcile_keys (ws : list World) :
  forall (c : Config) (p : string) (v' : Z),
    m_partialTorrents (watcher (reconcile c ws)) !! p = Some v' ->
    exists v,
      m_partialTorrents (watcher c) !! p = Some v
      /\ v' = v + Z.of_nat (length ws)
      /\ (ws <> [] -> v' <= MAX_PARTIAL_RETRIES).
Proof.
  induction ws as [|w ws IH] using rev_ind; intros c p v' Hp.
  - exists v'. split_and!; [done | simpl; lia | done].
  - unfold reconcile in Hp. rewrite foldl_snoc in Hp.
    fold (reconcile c ws) in Hp. unfold tick in Hp.
    apply tick_keys in Hp as (v1 & Hp & -> & Hlt). simpl in Hp.
    destruct (IH c p v1 Hp) as (v & Hv & -> & _).
    exists v. split_and!; [done | rewrite length_app; simpl; lia | lia].
Qed.

(** X8.  Reconciliation ticks alone empty the tracker: when no retry count
    is negative, which holds in every configuration the event loop can reach,
    more ticks than the ceiling, in whatever worlds and with no scan in
    between, leave no entry. *)
Theorem tracker_drains (c : Config) (ws : list World) :
  map_Forall (fun (_ : string) (v : Z) => 0 <= v)
    (m_partialTorrents (watcher c)) ->
  MAX_PARTIAL_RETRIES < Z.of_nat (length ws) ->
  m_partialTorrents (watcher (reconcile c ws)) = ∅.
Proof.
  intros Hpos Hlen. apply map_eq. intros p. rewrite lookup_empty.
  destruct (m_partialTorrents (watcher (reconcile c ws)) !! p) as [v'|] eqn:E;
    [|done].
  destruct (reconcile_keys ws c p v' E) as (v & Hv & -> & Hle).
  specialize (Hpos p v Hv). simpl in Hpos.
  assert (ws <> []) by (intros ->; simpl in Hlen; unfold MAX_PARTIAL_RETRIES in *; lia).
  specialize (Hle H). lia.
Qed.

Lemma tracker_drains_witness :
  map_Forall (fun (_ : string) (v : Z) => 0 <= v)
    (m_partialTorrents (watcher TickExample.c))
  /\ m_partialTorrents
       (watcher (reconcile TickExample.c (replicate 6 TickExample.wValid)))
     = ∅.
Proof.
  assert (H : map_Forall (fun (_ : string) (v : Z) => 0 <= v)
                (m_partialTorrents (watcher TickExample.c))).
  { apply (bool_decide_unpack _). vm_compute. exact I. }
  split; [exact H|].
  apply (tracker_drains TickExample.c (replicate 6 TickExample.wValid) H).
  vm_compute. reflexivity.
Defined.

(** ** Classification and the trailing separator *)

Lemma endsWith_slash_append (path : string) :
  QString.endsWith (path +:+ "/") "/" = true.
Proof. apply endsWith_append. Qed.

(** X9.  [isNetworkFileSystem] asks [statfs] about the same name for a path
    and for the path with a separator appended, so a trailing separator does
    not change the classification. *)
Theorem classification_ignores_trailing_separator (path : string)
    (c : Config) :
  QString.endsWith path "/" = false ->
  statfsArgument (path +:+ "/") = statfsArgument path
  /\ isNetworkFileSystem (path +:+ "/") c = isNetworkFileSystem path c.
Proof.
  intros Hno.
  assert (Harg : statfsArgument (path +:+ "/") = statfsArgument path).
  { unfold statfsArgument. by rewrite endsWith_slash_append, Hno. }
  split; [done|]. unfold isNetworkFileSystem. by rewrite Harg.
Qed.

Lemma classification_ignores_trailing_separator_witness :
  QString.endsWith "/mnt/nas" "/" = false
  /\ isNetworkFileSystem "/mnt/nas/" (initial NetworkExample.w)
     = isNetworkFileSystem "/mnt/nas" (initial NetworkExample.w).
Proof.
  assert (H : QString.endsWith "/mnt/nas" "/" = false) by reflexivity.
  split; [exact H|].
  apply (classification_ignores_trailing_separator "/mnt/nas"
           (initial NetworkExample.w) H).
Defined.

(** ** The rename that does not succeed *)

Lemma rename_failed_world (oldName newName : string) (c : Config) :
  fileExists (world c) newName = true ->
  world (snd (QFile.rename oldName newName c)) = world c.
Proof.
  intros H. unfold QFile.rename.
  destruct (files (world c) !! oldName); [|done]. by rewrite H.
Qed.

(** While the name with [.invalid] appended is taken, the loop changes
    neither the file of an entry nor the file under that name. *)
Lemma removeIfLoop_taken (q : string) (v : Z) (entries : list (string * Z)) :
  NoDup entries.*1 ->
  (q, v) ∈ entries ->
  (forall p, p ∈ entries.*1 ->
     q <> p +:+ ".invalid" /\ p <> q +:+ ".invalid") ->
  forall (dict : gmap string Z) (nlp : list string) (c : Config),
    fileExists (world c) (q +:+ ".invalid") = true ->
    let r := removeIfLoop entries dict nlp c in
    files (world (loopConfig r)) !! q = files (world c) !! q
    /\ files (world (loopConfig r)) !! (q +:+ ".invalid")
       = files (world c) !! (q +:+ ".invalid").
Proof.
  induction entries as [|[key value] rest IH];
    intros Hnd Hin Hwf dict nlp c Htaken; [by apply elem_of_nil in Hin|].
  intros r. subst r. simpl in Hnd. apply NoDup_cons in Hnd as [Hk Hnd].
  assert (Hwf' : forall p, p ∈ rest.*1 ->
                   q <> p +:+ ".invalid" /\ p <> q +:+ ".invalid").
  { intros p Hp. apply Hwf. simpl. by apply list_elem_of_further. }
  rewrite removeIfLoop_cons.
  destruct (decide (key = q)) as [->|Hne].
  - assert (Hfq : forall p, p ∈ rest.*1 -> q <> p /\ q <> p +:+ ".invalid").
    { intros p Hp. split; [by intros ->|by apply Hwf']. }
    assert (Hfi : forall p, p ∈ rest.*1 ->
              q +:+ ".invalid" <> p
              /\ q +:+ ".invalid" <> p +:+ ".invalid").
    { intros p Hp. split.
      - intros <-. by apply (Hwf' _ Hp).
      - intros ->%append_suffix_inj. done. }
    destruct (outcome (world c) q value);
      rewrite !removeIfLoop_files by done; try done.
    by rewrite rename_failed_world.
  - assert (Hin' : (q, v) ∈ rest).
    { apply elem_of_cons in Hin as [[= ? ?]|Hin]; [congruence | done]. }
    destruct (Hwf key) as [Hq1 Hq2]; [simpl; apply list_elem_of_here|].
    specialize (IH Hnd Hin' Hwf').
    destruct (outcome (world c) key value); try by apply IH.
    set (c1 := snd (QFile.rename key (key +:+ ".invalid") c)).
    assert (Hf1 : files (world c1) !! q = files (world c) !! q).
    { subst c1. by apply rename_files_other. }
    assert (Hf2 : files (world c1) !! (q +:+ ".invalid")
                  = files (world c) !! (q +:+ ".invalid")).
    { subst c1. apply rename_files_other;
        [intros H; by apply Hq2 | intros H%append_suffix_inj; by apply Hne]. }
    destruct (IH (delete key dict) nlp c1) as [H1 H2].
    { by rewrite (fileExists_ext _ _ _ Hf2). }
    by rewrite H1, H2, Hf1, Hf2.
Qed.

(** X10.  The rename of a file past the retry ceiling is best effort.  When
    the name with [.invalid] appended is taken, the rename fails and neither
    file is touched, and the entry is dropped from the tracker all the same,
    without a report: the file stays under its own name, no longer tracked. *)
Theorem rename_target_taken (w : World) (c : Config) (p : string) (v : Z) :
  trackerSound (m_partialTorrents (watcher c)) ->
  m_partialTorrents (watcher c) !! p = Some v ->
  failing w p ->
  MAX_PARTIAL_RETRIES <= v ->
  fileExists w (p +:+ ".invalid") = true ->
  let c' := tick w c in
  m_partialTorrents (watcher c') !! p = None
  /\ Rename p (p +:+ ".invalid") false ∈ since c c'
  /\ (p ∉ reported (since c c'))
  /\ files (world c') !! p = Some false
  /\ files (world c') !! (p +:+ ".invalid") = files w !! (p +:+ ".invalid").
Proof.
  intros Hs Hp Hf Hmax Htaken c'.
  destruct (tick_failing w c p v Hs Hp Hf) as (Hd & Hrep & Hren & _).
  fold c' in Hd, Hrep, Hren.
  assert ((v <? MAX_PARTIAL_RETRIES) = false) as Hlt by (apply Z.ltb_ge; lia).
  rewrite Hlt in Hd.
  assert (Hwf : forall k,
            k ∈ (map_to_list (m_partialTorrents (watcher (setWorld w c)))).*1 ->
            p <> k +:+ ".invalid" /\ k <> p +:+ ".invalid").
  { intros k ([k' vk] & -> & Hk%elem_of_map_to_list)%list_elem_of_fmap.
    simpl in *.
    split; [by eapply (Hs k' vk Hk p v) | by eapply (Hs p v Hp k' vk)]. }
  destruct (removeIfLoop_taken p v
              (map_to_list (m_partialTorrents (watcher (setWorld w c))))
              (NoDup_fst_map_to_list _)
              (proj2 (elem_of_map_to_list _ _ _) Hp) Hwf
              (m_partialTorrents (watcher (setWorld w c))) []
              (setWorld w c) Htaken) as [H1 H2].
  fold (tickLoop (setWorld w c)) in H1, H2.
  assert (Hworld : world c' = world (loopConfig (tickLoop (setWorld w c)))).
  { subst c'. unfold tick. by rewrite processPartialTorrents_eq. }
  split_and!; [done | | done | |].
  - apply Hren. split_and!; [done | done |]. by rewrite Htaken.
  - rewrite Hworld, H1. exact Hf.
  - by rewrite Hworld, H2.
Qed.

Lemma rename_target_taken_witness :
  trackerSound (m_partialTorrents (watcher EdgeExample.cAtCeiling))
  /\ files (world (tick EdgeExample.wTaken EdgeExample.cAtCeiling))
     !! "/d/b.torrent" = Some false.
Proof.
  assert (Hs : trackerSound (m_partialTorrents (watcher EdgeExample.cAtCeiling))).
  { apply (bool_decide_unpack _). vm_compute. exact I. }
  split; [exact Hs|].
  destruct (rename_target_taken EdgeExample.wTaken EdgeExample.cAtCeiling
              "/d/b.torrent" 5 Hs) as (_ & _ & _ & Hfile & _).
  - vm_compute. reflexivity.
  - vm_compute. reflexivity.
  - vm_compute. discriminate.
  - vm_compute. reflexivity.
  - exact Hfile.
Defined.

(** ** What the watcher leaves alone *)

Lemma addPath_world (path : string) (c : Config) :
  world (addPath path c) = world c.
Proof.
  unfold addPath. destruct (dirExists (world c) path); simpl; [|done].
  destruct (isNetworkFileSystem_frame path c) as (_ & Hwo & _).
  destruct (isNetworkFileSystem path c) as [network c1]. simpl in *.
  destruct network; [done|]. rewrite scanLocalFolder_eq. simpl.
  unfold QFileSystemWatcher_addPath.
  by destruct (String.eqb path "" || _).
Qed.

Lemma removePath_world (path : string) (c : Config) :
  world (removePath path c) = world c.
Proof.
  unfold removePath. destruct (findWatchedFolder _ _ _ _) as [i|]; [|done].
  by destruct (delete i (m_watchedFolders (watcher c))).
Qed.

Lemma tick_files_other (c : Config) (x : string) :
  (forall p, is_Some (m_partialTorrents (watcher c) !! p) ->
             x <> p /\ x <> p +:+ ".invalid") ->
  files (world (processPartialTorrents c)) !! x = files (world c) !! x.
Proof.
  intros Hx. rewrite processPartialTorrents_eq. simpl.
  apply removeIfLoop_files.
  intros p ([k v] & -> & Hp%elem_of_map_to_list)%list_elem_of_fmap.
  apply Hx. simpl. eauto.
Qed.

Lemma tick_world_rest (c : Config) :
  dirExists (world (processPartialTorrents c)) = dirExists (world c)
  /\ canonicalPath (world (processPartialTorrents c)) = canonicalPath (world c)
  /\ statfs (world (processPartialTorrents c)) = statfs (world c).
Proof.
  rewrite processPartialTorrents_eq. simpl.
  destruct (removeIfLoop_frame
              (map_to_list (m_partialTorrents (watcher c)))
              (m_partialTorrents (watcher c)) [] c)
    as (_ & Hd & Hc & Hs & _).
  done.
Qed.

(** X11.  The only thing the watcher ever does to the world is the rename
    in the reconciliation tick.  Every handler other than the reconciliation
    tick leaves the world as it is, and the tick leaves alone every file that
    is neither a tracked path nor a tracked path with [.invalid] appended;
    directories and file systems are never changed. *)
Theorem watcher_touches_only_tracked_files (c : Config) (e : Event) :
  (forall w, e <> WorldChanged w) ->
  (e <> PartialTimeout -> world (step c e) = world c)
  /\ (forall x,
        (forall p, is_Some (m_partialTorrents (watcher c) !! p) ->
                   x <> p /\ x <> p +:+ ".invalid") ->
        files (world (step c e)) !! x = files (world c) !! x)
  /\ dirExists (world (step c e)) = dirExists (world c)
  /\ statfs (world (step c e)) = statfs (world c).
Proof.
  intros He.
  assert (Hother : e <> PartialTimeout -> world (step c e) = world c).
  { intros Hne. destruct e as [path|path|path| | | |w]; simpl.
    - apply addPath_world.
    - apply removePath_world.
    - case_bool_decide; [|done]. by rewrite scanLocalFolder_eq.
    - destruct (m_watchTimer (watcher c)) as [t|]; [|done].
      destruct (isActive t); [|done]. by rewrite scanNetworkFolders_eq.
    - done.
    - destruct (m_partialTorrentTimer (watcher c)) as [t|]; [|done].
      by destruct (deletePending t).
    - by destruct (He w). }
  assert (Hcases : e = PartialTimeout \/ e <> PartialTimeout).
  { destruct e; (by left) || (by right). }
  destruct Hcases as [->|Hne].
  - split; [done|]. simpl.
    destruct (m_partialTorrentTimer (watcher c)) as [t|]; [|done].
    destruct (isActive t); [|done].
    set (c0 := setWatcher _ c).
    destruct (tick_world_rest c0) as (Hd & _ & Hs).
    split_and!; [|done|done].
    intros x Hx. by apply (tick_files_other c0).
  - rewrite (Hother Hne). by split_and!.
Qed.

Lemma watcher_touches_only_tracked_files_witness :
  (forall w, PartialTimeout <> WorldChanged w)
  /\ dirExists (world (step TickExample.c PartialTimeout))
     = dirExists (world TickExample.c).
Proof.
  assert (H : forall w, PartialTimeout <> WorldChanged w) by discriminate.
  split; [exact H|].
  destruct (watcher_touches_only_tracked_files TickExample.c PartialTimeout H)
    as (_ & _ & Hd & _).
  exact Hd.
Defined.

(** ** How the timers are set up *)

Lemma timersConfigured_scan (w : World) (f : FileSystemWatcher)
    (dir : string) :
  timersConfigured f -> timersConfigured (scanWatcher w f dir).
Proof.
  unfold timersConfigured, scanWatcher, timerAfterScan. simpl.
  intros [Hw Hp]. split; [done|].
  case_bool_decide; [|done].
  by destruct (m_partialTorrentTimer f).
Qed.

Lemma timersConfigured_scans (w : World) (dirs : list string) :
  forall f, timersConfigured f -> timersConfigured (foldl (scanWatcher w) f dirs).
Proof.
  induction dirs as [|d dirs IH]; intros f Hf; [done|].
  simpl. by apply IH, timersConfigured_scan.
Qed.

Lemma timersConfigured_tick (c : Config) :
  timersConfigured (watcher c) ->
  timersConfigured (watcher (processPartialTorrents c)).
Proof.
  rewrite processPartialTorrents_eq. unfold timersConfigured, timerAfterTick.
  simpl. intros [Hw Hp]. split; [done|].
  destruct (m_partialTorrentTimer (watcher c)) as [t|];
    case_bool_decide; simpl; try done.
  by destruct Hp.
Qed.

Lemma timersConfigured_addPath (path : string) (c : Config) :
  timersConfigured (watcher c) -> timersConfigured (watcher (addPath path c)).
Proof.
  intros Hinv. unfold addPath.
  destruct (dirExists (world c) path); simpl; [|done].
  destruct (isNetworkFileSystem_frame path c) as (Hw & _).
  destruct (isNetworkFileSystem path c) as [network c1]. simpl in *.
  rewrite <- Hw in Hinv. destruct network.
  - unfold timersConfigured in *.
    destruct (m_watchTimer (watcher c1)) as [t|] eqn:Ht; simpl; rewrite ?Ht;
      by destruct Hinv.
  - rewrite scanLocalFolder_eq. simpl. apply timersConfigured_scan.
    unfold QFileSystemWatcher_addPath.
    by destruct (String.eqb path "" || _).
Qed.

Lemma timersConfigured_removePath (path : string) (c : Config) :
  timersConfigured (watcher c) ->
  timersConfigured (watcher (removePath path c)).
Proof.
  intros Hinv. unfold removePath.
  destruct (findWatchedFolder _ _ _ _) as [i|]; [|done].
  destruct (delete i (m_watchedFolders (watcher c))); [|done].
  unfold timersConfigured in *. simpl. by destruct Hinv.
Qed.

Lemma timersConfigured_step (c : Config) (e : Event) :
  timersConfigured (watcher c) -> timersConfigured (watcher (step c e)).
Proof.
  intros Hinv. destruct e as [path|path|path| | | |w]; simpl.
  - by apply timersConfigured_addPath.
  - by apply timersConfigured_removePath.
  - case_bool_decide; [|done]. rewrite scanLocalFolder_eq. simpl.
    by apply timersConfigured_scan.
  - destruct (m_watchTimer (watcher c)) as [t|] eqn:Ht; [|done].
    destruct (isActive t); [|done].
    rewrite scanNetworkFolders_eq. simpl. apply timersConfigured_scans.
    unfold timersConfigured in *. rewrite Ht in Hinv. simpl.
    destruct Hinv as [(Hs & Hi & Hd) Hp]. split; [|done].
    unfold Timer.expire. by rewrite Hs.
  - destruct (m_partialTorrentTimer (watcher c)) as [t|] eqn:Ht; [|done].
    destruct (isActive t); [|done].
    apply timersConfigured_tick.
    unfold timersConfigured in *. rewrite Ht in Hinv. simpl.
    destruct Hinv as [Hw [Hs Hi]]. split; [done|].
    unfold Timer.expire. by rewrite Hs.
  - destruct (m_partialTorrentTimer (watcher c)) as [t|] eqn:Ht; [|done].
    destruct (deletePending t); [|done].
    unfold timersConfigured in *. simpl. by destruct Hinv.
  - done.
Qed.

(** X12.  In every configuration the event loop can reach, a network poll
    timer that exists is a repeating timer on the interval of 10000 ms that is
    not awaiting deletion, and a reconciliation timer that exists is a
    single-shot timer on the same interval. *)
Theorem timers_are_configured (w : World) (events : list Event) :
  timersConfigured (watcher (run (initial w) events)).
Proof.
  assert (H : forall c, timersConfigured (watcher c) ->
                        timersConfigured (watcher (run c events))).
  { induction events as [|e events IH]; intros c Hc; [done|].
    rewrite run_cons. by apply IH, timersConfigured_step. }
  apply H. by split.
Qed.

(** ** [addPath] on a local directory *)

(** X13.  [addPath] on an existing directory that is not on a network file
    system subscribes the directory with the base class and scans it at once:
    the call reports exactly the files that are ready in the directory, and
    touches neither the list of network folders nor the poll timer. *)
Theorem addPath_local_scans_at_once (path : string) (c : Config) :
  dirExists (world c) path = true ->
  fst (isNetworkFileSystem path c) = false ->
  let c' := addPath path c in
  reported (since c c') = readyPaths (world c) (m_filters (watcher c)) path
  /\ (path <> "" -> path ∈ baseDirectories (watcher c'))
  /\ m_watchedFolders (watcher c') = m_watchedFolders (watcher c)
  /\ m_watchTimer (watcher c') = m_watchTimer (watcher c).
Proof.
  intros He Hn c'.
  assert (Hc' : c' = scanLocalFolder path
                       (QFileSystemWatcher_addPath path
                          (snd (isNetworkFileSystem path c)))).
  { subst c'. unfold addPath. rewrite He. simpl.
    destruct (isNetworkFileSystem path c) as [network c1]. simpl in *.
    by subst network. }
  destruct (isNetworkFileSystem_frame path c) as (Hw & Hwo & Hef).
  set (c1 := snd (isNetworkFileSystem path c)) in *.
  assert (Hbase : path <> "" ->
            path ∈ baseDirectories
                     (watcher (QFileSystemWatcher_addPath path c1))).
  { intros Hne. unfold QFileSystemWatcher_addPath.
    destruct (String.eqb path "") eqn:E; [by apply String.eqb_eq in E|].
    simpl. case_bool_decide as Hin; [done|]. simpl.
    apply elem_of_app. right. apply list_elem_of_here. }
  assert (Hrest : world (QFileSystemWatcher_addPath path c1) = world c
                  /\ effects (QFileSystemWatcher_addPath path c1) = effects c1
                  /\ m_filters (watcher (QFileSystemWatcher_addPath path c1))
                     = m_filters (watcher c)
                  /\ m_watchedFolders
                       (watcher (QFileSystemWatcher_addPath path c1))
                     = m_watchedFolders (watcher c)
                  /\ m_watchTimer (watcher (QFileSystemWatcher_addPath path c1))
                     = m_watchTimer (watcher c)).
  { unfold QFileSystemWatcher_addPath. rewrite <- Hw, <- Hwo.
    by destruct (String.eqb path "" || _). }
  destruct Hrest as (Hwo2 & Hef2 & Hfi2 & Hwf2 & Hwt2).
  rewrite Hc', scanLocalFolder_eq. simpl.
  split_and!.
  - erewrite since_app
      by (simpl; rewrite Hef2, Hef, <- app_assoc; reflexivity).
    by rewrite reported_app, reported_statfsDiagnostics, reported_report,
      Hwo2, Hfi2.
  - exact Hbase.
  - exact Hwf2.
  - exact Hwt2.
Qed.

Lemma addPath_local_scans_at_once_witness :
  dirExists ScanExample.w "/d" = true
  /\ reported (since ScanExample.c (addPath "/d" ScanExample.c))
     = readyPaths ScanExample.w ["*.torrent"; "*.magnet"] "/d".
Proof.
  assert (He : dirExists (world ScanExample.c) "/d" = true) by reflexivity.
  split; [exact He|].
  destruct (addPath_local_scans_at_once "/d" ScanExample.c He)
    as (Hrep & _).
  - vm_compute. reflexivity.
  - exact Hrep.
Defined.

(** ** The name filter and the magnet test *)

(** X14.  The listing matches the name filters without regard to case,
    while the test for a magnet link compares the extension as it is written.
    A file the filter [*.magnet] lets in whose path does not end with
    [.magnet] in lower case is therefore handled as a torrent file: when the
    parser rejects it and the tracker does not hold it, the scan does not
    report it and registers it as partial with retry count 0. *)
Theorem magnet_filter_ignores_case_magnet_test_does_not (c : Config)
    (dir name : string) :
  let p := QDir.absoluteFilePath dir name in
  m_filters (watcher c) = m_filters newFileSystemWatcher ->
  QDir.entryName dir p = Some name ->
  Wildcard.matches false "*.magnet" name = true ->
  QString.endsWith p ".magnet" = false ->
  failing (world c) p ->
  m_partialTorrents (watcher c) !! p = None ->
  let c' := scanLocalFolder dir c in
  p ∈ scanPaths (world c) dir (m_filters (watcher c))
  /\ (p ∉ reported (since c c'))
  /\ m_partialTorrents (watcher c') !! p = Some 0.
Proof.
  intros p Hfi Hname Hmatch Hends Hfail Hnew c'.
  assert (Hin : p ∈ scanPaths (world c) dir (m_filters (watcher c))).
  { apply scanPaths_spec. exists name. split_and!; [done | done | |].
    - unfold failing in Hfail. by rewrite Hfail.
    - rewrite Hfi.
      change (Wildcard.matchesAny false (m_filters newFileSystemWatcher) name)
        with (Wildcard.matches false "*.torrent" name
              || (Wildcard.matches false "*.magnet" name || false)).
      rewrite Hmatch. by destruct (Wildcard.matches false "*.torrent" name). }
  assert (Hready : readyFile (world c) p = false).
  { unfold readyFile, isValidTorrent. rewrite Hends. simpl.
    unfold failing in Hfail. rewrite Hfail. by apply bool_decide_eq_false_2. }
  subst c'. rewrite scanLocalFolder_eq. simpl.
  split_and!; [done | |].
  - erewrite since_app by (simpl; reflexivity). rewrite reported_report.
    unfold readyPaths. intros [Hr _]%list_elem_of_filter. congruence.
  - rewrite registerPartial_lookup, Hnew, Hready.
    by rewrite bool_decide_eq_true_2.
Qed.

Lemma magnet_filter_ignores_case_magnet_test_does_not_witness :
  Wildcard.matches false "*.magnet" "X.MAGNET" = true
  /\ m_partialTorrents
       (watcher (scanLocalFolder "/d" (initial EdgeExample.wUpper)))
     !! "/d/X.MAGNET" = Some 0.
Proof.
  assert (Hm : Wildcard.matches false "*.magnet" "X.MAGNET" = true)
    by reflexivity.
  split; [exact Hm|].
  assert (Hf : failing (world (initial EdgeExample.wUpper)) "/d/X.MAGNET")
    by (vm_compute; reflexivity).
  exact (proj2 (proj2
    (magnet_filter_ignores_case_magnet_test_does_not
       (initial EdgeExample.wUpper) "/d" "X.MAGNET"
       eq_refl eq_refl Hm eq_refl Hf eq_refl))).
Defined.

(** ** The batch of a reconciliation tick *)

Lemma outcome_BecameValid (w : World) (p : string) (v : Z) :
  outcome w p v = BecameValid ->
  fileExists w p = true /\ isValidTorrent w p = true.
Proof.
  unfold outcome. destruct (fileExists w p); simpl; [|done].
  destruct (isValidTorrent w p); [done|].
  by destruct (MAX_PARTIAL_RETRIES <=? v).
Qed.

(** X15.  The batch of a reconciliation tick holds no path twice, and every
    path in it was tracked when the tick started and names a file that exists
    and that the parser accepts: the tick never reports a file it was not
    tracking, nor one that is missing or still invalid. *)
Theorem tick_batch_sound (c : Config) :
  trackerSound (m_partialTorrents (watcher c)) ->
  let batch := reported (since c (processPartialTorrents c)) in
  NoDup batch
  /\ forall p, p ∈ batch ->
       is_Some (m_partialTorrents (watcher c) !! p)
       /\ fileExists (world c) p = true
       /\ isValidTorrent (world c) p = true.
Proof.
  intros Hs batch.
  destruct (tick_effects c) as (rs & _ & _ & _ & Hnd & Hrep).
  subst batch. rewrite Hrep. split; [done|]. intros p Hp.
  destruct (removeIfLoop_frame
              (map_to_list (m_partialTorrents (watcher c)))
              (m_partialTorrents (watcher c)) [] c)
    as (_ & _ & _ & _ & (new & Hn & Hsub) & _).
  fold (tickLoop c) in Hn. simpl in Hn.
  assert (Hin := Hp). rewrite Hn in Hin.
  apply (sublist_subseteq _ _ Hsub) in Hin.
  apply list_elem_of_fmap in Hin as ([k v] & -> & Hin%elem_of_map_to_list).
  simpl in *.
  destruct (tick_entry c k v Hs Hin) as (_ & Hr & _).
  rewrite Hrep in Hr. apply Hr in Hp.
  apply outcome_BecameValid in Hp as [? ?]. eauto.
Qed.

Lemma tick_batch_sound_witness :
  trackerSound (m_partialTorrents (watcher TickExample.c))
  /\ NoDup
       (reported
          (since (setWorld TickExample.wValid TickExample.c)
             (processPartialTorrents
                (setWorld TickExample.wValid TickExample.c)))).
Proof.
  assert (Hs : trackerSound (m_partialTorrents (watcher TickExample.c))).
  { apply (bool_decide_unpack _). vm_compute. exact I. }
  split; [exact Hs|].
  exact (proj1 (tick_batch_sound
                  (setWorld TickExample.wValid TickExample.c) Hs)).
Defined.


(** ** Magnet links are never tracked *)




Lemma noRename_app (es es' : list Effect) :
  noRename es -> noRename es' -> noRename (es ++ es').
Proof.
  intros H H' o n ok [Hin|Hin]%elem_of_app; [by apply (H o n ok) |
                                              by apply (H' o n ok)].
Qed.










(** ** Witnesses for the lemmas on the reconciliation timer *)

Lemma scan_creates_timer_witness :
  m_partialTorrentTimer (watcher (initial TickExample.w)) = None
  /\ armed
       (m_partialTorrentTimer
          (watcher (scanLocalFolder "/d" (initial TickExample.w))))
     = true.
Proof.
  assert (Hnone : m_partialTorrentTimer (watcher (initial TickExample.w))
                  = None) by reflexivity.
  split; [exact Hnone|].
  apply (scan_creates_timer "/d" (initial TickExample.w) Hnone).
  apply (bool_decide_unpack _). vm_compute. exact I.
Defined.

Lemma tick_timer_witness :
  is_Some (m_partialTorrentTimer (watcher TickExample.c))
  /\ armed
       (m_partialTorrentTimer (watcher (processPartialTorrents TickExample.c)))
     = true.
Proof.
  assert (Hsome : is_Some (m_partialTorrentTimer (watcher TickExample.c))).
  { apply (bool_decide_unpack _). vm_compute. exact I. }
  split; [exact Hsome|].
  apply (tick_timer TickExample.c Hsome).
  apply (bool_decide_unpack _). vm_compute. exact I.
Defined.
